(** * LRUfy: a shallow embedding of the LRU cache and its recency list

    The development follows the two source classes:
    - [DoublyLinkedList] (linked-list.ts): the recency list, head = most
      recently used, tail = least recently used;
    - [LRUCache] (lru-cache.ts): the cache engine with its key index (a JS
      [Map]), the list, the size accounting, the hit/miss counters and the
      dispose hook.

    Modelling decisions, all local to this file:
    - Counters, counts, limits, TTLs and clock readings are integers [Z];
      [Infinity] for [max]/[maxSize] is [None].
    - Sizes are JS numbers, that is IEEE 754 doubles, and [totalSize] is
      updated with [+=] and [-=].  The engine below keeps them in [Z], which
      is what the doubles compute as long as every size is an integer and
      every running sum stays within 2^53; outside that range the source
      rounds and the engine does not.  The statements of this file about
      whole histories therefore do not rest on sums of sizes: they need no
      [maxSize], or hold whatever the capacity test answers, or follow one
      update of [totalSize] as the source performs it; the one statement
      about the sum, [totalSize_is_recount], is labelled as exact
      arithmetic.  What rounding does to the accounting is shown on the
      doubles themselves in [Accounting].
    - A node object is a record; its identity ([===], the pointer a list link
      holds) is the allocation stamp [nid] given by [new Node].  The [prev]
      and [next] links are the positions in the sequence [dl_items].
    - The JS [Map] is an association list in insertion order: [Map.set] on a
      present key replaces the value in place, on a new key appends;
      iteration is in that order.
    - Every [Date.now()] of the source is an explicit argument.  [get],
      [has], [peek] and [prune] read the clock once.  [set] reads it twice,
      for the expiry of the new entry and again inside its closing [prune]:
      [set_at] takes both readings, and [set] is the case in which the clock
      did not move between them.  [serialize] reads it once per entry with
      an expiry ([serialize_at]), [deserialize] twice per tuple
      ([deserialize_at]).
    - The dispose callback is an observer: every invocation is appended to
      the trace [disposed], together with what the callback could observe of
      the entry at that instant (still indexed, still linked).  Callbacks do
      not call back into the cache. *)

From Stdlib Require Import ZArith List Bool Lia Permutation String Floats.
Import ListNotations.
Open Scope Z_scope.

(** ** linked-list.ts *)

Module DoublyLinkedList.
Section WithTypes.
Context {K V : Type}.

(** [class Node]: [prev]/[next] are given by the position in the list. *)
Record Node : Type := mkNode {
  nid : nat;
  key : K;
  value : V;
  size : Z;
  expiry : option Z
}.

(** [class DoublyLinkedList]: [dl_items] is the chain from [head] to [tail],
    [dl_length] the separately maintained [length] field. *)
Record t : Type := mkList {
  dl_items : list Node;
  dl_length : Z
}.

Definition empty : t := {| dl_items := []; dl_length := 0 |}.

Definition head (l : t) : option Node := hd_error (dl_items l).

Fixpoint last_node (ns : list Node) : option Node :=
  match ns with
  | [] => None
  | [n] => Some n
  | _ :: r => last_node r
  end.

Definition tail (l : t) : option Node := last_node (dl_items l).

(** Cutting one node out of the chain: the first cell holding that object. *)
Fixpoint unlink (node : Node) (ns : list Node) : list Node :=
  match ns with
  | [] => []
  | n :: r => if Nat.eqb (nid n) (nid node) then r else n :: unlink node r
  end.

Definition addToFront (node : Node) (l : t) : t :=
  {| dl_items := node :: dl_items l; dl_length := dl_length l + 1 |}.

Definition remove (node : Node) (l : t) : t :=
  {| dl_items := unlink node (dl_items l); dl_length := dl_length l - 1 |}.

Definition moveToFront (node : Node) (l : t) : t :=
  match head l with
  | Some h => if Nat.eqb (nid h) (nid node) then l
              else addToFront node (remove node l)
  | None => addToFront node (remove node l)
  end.

Definition removeTail (l : t) : option Node * t :=
  match tail l with
  | None => (None, l)
  | Some n => (Some n, remove n l)
  end.

Definition clear (l : t) : t := empty.

End WithTypes.
Arguments Node : clear implicits.
Arguments t : clear implicits.
End DoublyLinkedList.

(** ** lru-cache.ts *)

Module LRUCache.
Import DoublyLinkedList.

Inductive EvictionReason : Type :=
  | DELETED | EVICTED | EXPIRED | OVERWRITTEN | CACHE_CLEAR.

(** [interface ItemOptions]: both fields optional. *)
Record ItemOptions : Type := mkItem {
  io_ttl : option Z;
  io_size : option Z
}.

Definition noItemOptions : ItemOptions := {| io_ttl := None; io_size := None |}.

Section Engine.
Context {K V : Type}.
Variable K_eq_dec : forall x y : K, {x = y} + {x <> y}.

(** [InternalLRUCacheOptions].  [opt_dispose] says whether a callback is
    configured; the callback itself is the trace. *)
Record Options : Type := mkOptions {
  opt_max : option Z;
  opt_maxSize : option Z;
  opt_ttl : Z;
  opt_sizeCalculation : V -> K -> Z;
  opt_dispose : bool;
  opt_noDisposeOnSet : bool;
  opt_allowStale : bool;
  opt_pruneInterval : Z;
  opt_asyncDispose : bool
}.

(** One invocation of the dispose callback. *)
Record DisposeCall : Type := mkCall {
  d_value : V;
  d_key : K;
  d_reason : EvictionReason;
  d_async : bool;
  d_indexed : bool;
  d_linked : bool
}.

Record State : Type := mkState {
  cache : list (K * Node K V);
  lst : DoublyLinkedList.t K V;
  totalSize : Z;
  hits : Z;
  misses : Z;
  disposed : list DisposeCall;
  fresh : nat
}.

Variable opts : Options.

(** *** The JS Map *)

Fixpoint map_get (k : K) (m : list (K * Node K V)) : option (Node K V) :=
  match m with
  | [] => None
  | (k', n) :: r => if K_eq_dec k k' then Some n else map_get k r
  end.

Fixpoint map_set (k : K) (n : Node K V) (m : list (K * Node K V))
  : list (K * Node K V) :=
  match m with
  | [] => [(k, n)]
  | (k', n') :: r =>
      if K_eq_dec k k' then (k, n) :: r else (k', n') :: map_set k n r
  end.

Fixpoint map_delete (k : K) (m : list (K * Node K V)) : list (K * Node K V) :=
  match m with
  | [] => []
  | (k', n') :: r =>
      if K_eq_dec k k' then r else (k', n') :: map_delete k r
  end.

Definition map_size (m : list (K * Node K V)) : Z := Z.of_nat (List.length m).

(** *** Field updates *)

Definition with_cache (c : list (K * Node K V)) (st : State) : State :=
  mkState c (lst st) (totalSize st) (hits st) (misses st) (disposed st) (fresh st).
Definition with_lst (l : DoublyLinkedList.t K V) (st : State) : State :=
  mkState (cache st) l (totalSize st) (hits st) (misses st) (disposed st) (fresh st).
Definition with_totalSize (z : Z) (st : State) : State :=
  mkState (cache st) (lst st) z (hits st) (misses st) (disposed st) (fresh st).
Definition with_hits (z : Z) (st : State) : State :=
  mkState (cache st) (lst st) (totalSize st) z (misses st) (disposed st) (fresh st).
Definition with_misses (z : Z) (st : State) : State :=
  mkState (cache st) (lst st) (totalSize st) (hits st) z (disposed st) (fresh st).
Definition with_disposed (d : list DisposeCall) (st : State) : State :=
  mkState (cache st) (lst st) (totalSize st) (hits st) (misses st) d (fresh st).
Definition with_fresh (n : nat) (st : State) : State :=
  mkState (cache st) (lst st) (totalSize st) (hits st) (misses st) (disposed st) n.

(** *** constructor, size *)

Definition new : State :=
  mkState [] DoublyLinkedList.empty 0 0 0 [] 0%nat.

Definition size (st : State) : Z := map_size (cache st).

(** *** disposeItem *)

Definition linked (k : K) (l : DoublyLinkedList.t K V) : bool :=
  existsb (fun n => if K_eq_dec (key n) k then true else false) (dl_items l).

Definition indexed (k : K) (m : list (K * Node K V)) : bool :=
  match map_get k m with Some _ => true | None => false end.

Definition disposeItem (k : K) (v : V) (reason : EvictionReason) (st : State)
  : State :=
  if negb (opt_dispose opts) then st
  else with_disposed
         (disposed st ++
          [mkCall v k reason (opt_asyncDispose opts)
                  (indexed k (cache st)) (linked k (lst st))]) st.

(** *** Freshness tests as the source writes them *)

(** [node.expiry !== null && node.expiry < now] (get, has, peek). *)
Definition expired_lt (n : Node K V) (now : Z) : bool :=
  match expiry n with Some e => e <? now | None => false end.

(** [node.expiry !== null && node.expiry <= now] (prune). *)
Definition expired_le (n : Node K V) (now : Z) : bool :=
  match expiry n with Some e => e <=? now | None => false end.

(** *** delete *)

Definition delete (k : K) (reason : EvictionReason) (st : State)
  : bool * State :=
  match map_get k (cache st) with
  | None => (false, st)
  | Some node =>
      let st1 := disposeItem (key node) (value node) reason st in
      let st2 := with_cache (map_delete k (cache st1)) st1 in
      let st3 := with_lst (remove node (lst st2)) st2 in
      (true, with_totalSize (totalSize st3 - DoublyLinkedList.size node) st3)
  end.

(** *** get, has, peek *)

Definition get (k : K) (now : Z) (st : State) : option V * State :=
  match map_get k (cache st) with
  | None => (None, with_misses (misses st + 1) st)
  | Some node =>
      if expired_lt node now then
        if opt_allowStale opts then
          (Some (value node), with_hits (hits st + 1) st)
        else
          let st1 := snd (delete k EXPIRED st) in
          (None, with_misses (misses st1 + 1) st1)
      else
        let st1 := with_lst (moveToFront node (lst st)) st in
        (Some (value node), with_hits (hits st1 + 1) st1)
  end.

Definition has (k : K) (now : Z) (st : State) : bool * State :=
  match map_get k (cache st) with
  | None => (false, st)
  | Some node =>
      if expired_lt node now && negb (opt_allowStale opts) then (false, st)
      else (true, st)
  end.

Definition peek (k : K) (now : Z) (st : State) : option V * State :=
  match map_get k (cache st) with
  | None => (None, st)
  | Some node =>
      if expired_lt node now && negb (opt_allowStale opts) then (None, st)
      else (Some (value node), st)
  end.

(** *** prune *)

(** First loop: [for (const [key, node] of this.cache.entries())].  Only the
    entry under the cursor is ever deleted, so the live iteration visits the
    entries present at the start, in order. *)
Definition prune_expired (now : Z) (st : State) : Z * State :=
  fold_left
    (fun (acc : Z * State) (kn : K * Node K V) =>
       if expired_le (snd kn) now
       then (fst acc + 1, snd (delete (fst kn) EXPIRED (snd acc)))
       else acc)
    (cache st) (0, st).

(** The [while] condition. *)
Definition over_capacity (st : State) : bool :=
  match opt_max opts with
  | Some m => size st >? m
  | None => false
  end
  ||
  match opt_maxSize opts with
  | Some m => totalSize st >? m
  | None => false
  end.

(** One turn of the [while] body, [None] on [break]. *)
Definition evict_tail (st : State) : option State :=
  match removeTail (lst st) with
  | (None, _) => None
  | (Some node, l') =>
      let st1 := with_lst l' st in
      let st2 := with_cache (map_delete (key node) (cache st1)) st1 in
      let st3 := disposeItem (key node) (value node) EVICTED st2 in
      Some (with_totalSize (totalSize st3 - DoublyLinkedList.size node) st3)
  end.

(** Second loop, by fuel.  Every turn takes one node off the list, and
    [prune] supplies one turn more than the list has nodes, so the loop
    always leaves through its condition or its [break]
    ([prune_capacity_exit], [prune_capacity_enough]). *)
Fixpoint prune_capacity (fuel : nat) (pruned : Z) (st : State) : Z * State :=
  match fuel with
  | O => (pruned, st)
  | S f =>
      if over_capacity st then
        match evict_tail st with
        | None => (pruned, st)
        | Some st' => prune_capacity f (pruned + 1) st'
        end
      else (pruned, st)
  end.

Definition capacity_fuel (st : State) : nat :=
  S (List.length (dl_items (lst st))).

Definition prune (now : Z) (st : State) : Z * State :=
  let (pruned, st1) := prune_expired now st in
  prune_capacity (capacity_fuel st1) pruned st1.

(** *** set *)

(** [options.ttl ?? this.options.ttl], then [ttl > 0 ? Date.now() + ttl : null]. *)
Definition item_ttl (options : ItemOptions) : Z :=
  match io_ttl options with Some t => t | None => opt_ttl opts end.

Definition item_expiry (options : ItemOptions) (now : Z) : option Z :=
  if item_ttl options >? 0 then Some (now + item_ttl options) else None.

(** [options.size ?? this.options.sizeCalculation(value, key)]. *)
Definition item_size (options : ItemOptions) (v : V) (k : K) : Z :=
  match io_size options with
  | Some s => s
  | None => opt_sizeCalculation opts v k
  end.

(** The body of [set] up to, and without, its final [this.prune()]. *)
Definition set_entry (k : K) (v : V) (options : ItemOptions) (now : Z)
  (st : State) : State :=
  let st1 :=
    match map_get k (cache st) with
    | Some existing =>
        let s :=
          if negb (opt_noDisposeOnSet opts)
          then disposeItem (key existing) (value existing) OVERWRITTEN st
          else st in
        let s' := with_lst (remove existing (lst s)) s in
        with_totalSize (totalSize s' - DoublyLinkedList.size existing) s'
    | None => st
    end in
  let expiry := item_expiry options now in
  let sz := item_size options v k in
  let node := mkNode (fresh st1) k v sz expiry in
  let st2 := with_fresh (S (fresh st1)) st1 in
  let st3 := with_lst (addToFront node (lst st2)) st2 in
  let st4 := with_cache (map_set k node (cache st3)) st3 in
  with_totalSize (totalSize st4 + sz) st4.

(** [set] with both of its readings of the clock: [now] is the [Date.now()]
    of the expiry, [now'] the one the closing [this.prune()] takes. *)
Definition set_at (k : K) (v : V) (options : ItemOptions) (now now' : Z)
  (st : State) : State :=
  snd (prune now' (set_entry k v options now st)).

(** [set] when the clock does not move between its two readings. *)
Definition set (k : K) (v : V) (options : ItemOptions) (now : Z) (st : State)
  : State :=
  snd (prune now (set_entry k v options now st)).

(** *** clear *)

Definition clear (st : State) : State :=
  let st1 :=
    if opt_dispose opts then
      fold_left
        (fun (s : State) (kn : K * Node K V) =>
           disposeItem (fst kn) (value (snd kn)) CACHE_CLEAR s)
        (cache st) st
    else st in
  let st2 := with_cache [] st1 in
  let st3 := with_lst (DoublyLinkedList.clear (lst st2)) st2 in
  with_totalSize 0 st3.

(** *** getStats (without the floating-point [hitRate]) *)

Record CacheStats : Type := mkStats {
  s_size : Z;
  s_hits : Z;
  s_misses : Z;
  s_totalSize : Z
}.

Definition getStats (st : State) : CacheStats :=
  mkStats (map_size (cache st)) (hits st) (misses st) (totalSize st).

(** *** serialize, deserialize *)

Definition serialize_entry (now : Z) (kn : K * Node K V)
  : option (K * V * ItemOptions) :=
  let node := snd kn in
  match expiry node with
  | Some e =>
      let ttl := e - now in
      if ttl >? 0 then
        Some (fst kn, value node,
              {| io_ttl := Some ttl; io_size := Some (DoublyLinkedList.size node) |})
      else if negb (opt_allowStale opts) then None
      else Some (fst kn, value node,
                 {| io_ttl := None; io_size := Some (DoublyLinkedList.size node) |})
  | None =>
      Some (fst kn, value node,
            {| io_ttl := None; io_size := Some (DoublyLinkedList.size node) |})
  end.

Fixpoint serialize_entries (now : Z) (m : list (K * Node K V))
  : list (K * V * ItemOptions) :=
  match m with
  | [] => []
  | kn :: r =>
      match serialize_entry now kn with
      | Some e => e :: serialize_entries now r
      | None => serialize_entries now r
      end
  end.

(** [serialize] when the clock does not move during the call. *)
Definition serialize (now : Z) (st : State)
  : list (K * V * ItemOptions) * State :=
  (serialize_entries now (cache st), st).

(** [serialize] reads the clock inside its loop, for every entry that has an
    expiry: [clock k] is the reading taken at the entry of key [k]. *)
Fixpoint serialize_entries_at (clock : K -> Z) (m : list (K * Node K V))
  : list (K * V * ItemOptions) :=
  match m with
  | [] => []
  | kn :: r =>
      match serialize_entry (clock (fst kn)) kn with
      | Some e => e :: serialize_entries_at clock r
      | None => serialize_entries_at clock r
      end
  end.

Definition serialize_at (clock : K -> Z) (st : State)
  : list (K * V * ItemOptions) * State :=
  (serialize_entries_at clock (cache st), st).

(** The arguments of one [set] call together with the two clock readings the
    call takes. *)
Definition Timed : Type := (K * V * ItemOptions * (Z * Z))%type.


Definition set_timed (c : Timed) (st : State) : State :=
  set_at (fst (fst (fst c))) (snd (fst (fst c))) (snd (fst c))
         (fst (snd c)) (snd (snd c)) st.

(** [deserialize], every tuple with the readings of its [set]. *)
Definition deserialize_at (data : list Timed) (st : State) : State :=
  fold_left (fun (s : State) (c : Timed) => set_timed c s) data (clear st).

(** [deserialize] when the clock does not move during the call. *)
Definition deserialize (data : list (K * V * ItemOptions)) (now : Z)
  (st : State) : State :=
  fold_left
    (fun (s : State) (e : K * V * ItemOptions) =>
       set (fst (fst e)) (snd (fst e)) (snd e) now s)
    data (clear st).

(** Serialized data with the readings of a restore: the [set] of the tuple
    of key [k] reads [set_clock k], its closing [prune] reads
    [prune_clock k]. *)
Definition with_readings (set_clock prune_clock : K -> Z)
  (data : list (K * V * ItemOptions)) : list Timed :=
  map (fun e : K * V * ItemOptions =>
         (e, (set_clock (fst (fst e)), prune_clock (fst (fst e))))) data.

(** *** The public operations as one step function *)

(** [OpSet], [OpSerialize] and [OpDeserialize] are calls during which the clock
    does not move; [OpSetAt] and [OpDeserializeAt] carry every reading. *)
Inductive Op : Type :=
  | OpGet (k : K) (now : Z)
  | OpHas (k : K) (now : Z)
  | OpPeek (k : K) (now : Z)
  | OpSet (k : K) (v : V) (options : ItemOptions) (now : Z)
  | OpDelete (k : K) (reason : EvictionReason)
  | OpClear
  | OpPrune (now : Z)
  | OpSerialize (now : Z)
  | OpDeserialize (data : list (K * V * ItemOptions)) (now : Z)
  | OpSetAt (k : K) (v : V) (options : ItemOptions) (now now' : Z)
  | OpDeserializeAt (data : list Timed).

Definition step (op : Op) (st : State) : State :=
  match op with
  | OpGet k now => snd (get k now st)
  | OpHas k now => snd (has k now st)
  | OpPeek k now => snd (peek k now st)
  | OpSet k v o now => set k v o now st
  | OpDelete k r => snd (delete k r st)
  | OpClear => clear st
  | OpPrune now => snd (prune now st)
  | OpSerialize now => snd (serialize now st)
  | OpDeserialize data now => deserialize data now st
  | OpSetAt k v o now now' => set_at k v o now now' st
  | OpDeserializeAt data => deserialize_at data st
  end.

Definition run (ops : list Op) (st : State) : State :=
  fold_left (fun s op => step op s) ops st.

(** *** Recency as the specification words it *)


(** The bounded LRU list of the specification, one operation at a time:
    [set] touches its key and keeps the [m] most recent keys, [get] touches
    its key when it is there, [has] and [peek] touch nothing. *)
Definition lru_step (m : nat) (acc : list K) (op : Op) : list K :=
  match op with
  | OpSet k _ _ _ | OpSetAt k _ _ _ _ =>
      firstn m (k :: List.remove K_eq_dec k acc)
  | OpGet k _ =>
      if in_dec K_eq_dec k acc then k :: List.remove K_eq_dec k acc else acc
  | _ => acc
  end.

(** Reads, and writes without TTL. *)
Definition plain_access (op : Op) : Prop :=
  match op with
  | OpSet _ _ o _ | OpSetAt _ _ o _ _ => item_ttl o <= 0
  | OpGet _ _ | OpHas _ _ | OpPeek _ _ => True
  | _ => False
  end.



(** *** The round trip as the specification words it *)

(** Not expired at [now] in the sense of [serialize]: no expiry, or a
    positive remaining TTL. *)
Definition live (now : Z) (n : Node K V) : bool :=
  match expiry n with Some e => e - now >? 0 | None => true end.

(** The entries [serialize] writes out: the live ones, and all of them under
    [allowStale]. *)
Definition emitted (now : Z) (n : Node K V) : bool :=
  live now n || opt_allowStale opts.

(** The tuple written for an emitted entry. *)
Definition emitted_tuple (now : Z) (kn : K * Node K V) : K * V * ItemOptions :=
  (fst kn, value (snd kn),
   {| io_ttl := match expiry (snd kn) with
                | Some e => if e - now >? 0 then Some (e - now) else None
                | None => None
                end;
      io_size := Some (DoublyLinkedList.size (snd kn)) |}).

(** The expiry an entry saved at [now] gets when restored at [now']: its
    remaining TTL counted from [now'], and the cache's default TTL when no
    TTL was written. *)
Definition rebased (now now' : Z) (n : Node K V) : option Z :=
  match expiry n with
  | Some e =>
      if e - now >? 0 then Some (now' + (e - now))
      else item_expiry noItemOptions now'
  | None => item_expiry noItemOptions now'
  end.

(** [new] restores [old]: same key, value and size, expiry re-based. *)
Definition restores (now now' : Z) (old new : K * Node K V) : Prop :=
  fst new = fst old /\ key (snd new) = fst old /\
  value (snd new) = value (snd old) /\
  DoublyLinkedList.size (snd new) = DoublyLinkedList.size (snd old) /\
  expiry (snd new) = rebased now now' (snd old).

Definition key_value (kn : K * Node K V) : K * V := (fst kn, value (snd kn)).

(** States the capacity loop has nothing to do on. *)
Definition within_limits (st : State) : Prop :=
  cache st = [] \/ over_capacity st = false.

(** *** Consistency between the index, the list and the accounting *)

Definition sum_sizes (ns : list (Node K V)) : Z :=
  fold_right (fun n acc => DoublyLinkedList.size n + acc) 0 ns.

(** The index and the list hold the same node objects, each once; every
    node is filed under its own key; the counters agree with a recount. *)
Record consistent (st : State) : Prop := mkConsistent {
  c_keys : NoDup (map fst (cache st));
  c_filed : Forall (fun kn => key (snd kn) = fst kn) (cache st);
  c_same : Permutation (map snd (cache st)) (dl_items (lst st));
  c_length : dl_length (lst st) = Z.of_nat (List.length (dl_items (lst st)));
  c_total : totalSize st = sum_sizes (map snd (cache st));
  c_ids : NoDup (map nid (dl_items (lst st)));
  c_fresh : Forall (fun n => (nid n < fresh st)%nat) (dl_items (lst st))
}.

(** The dispose calls made between two states all satisfy [P]. *)
Definition fired (st st' : State) (P : DisposeCall -> Prop) : Prop :=
  exists calls, disposed st' = disposed st ++ calls /\ Forall P calls.

Definition attached (c : DisposeCall) : Prop :=
  d_indexed c = true /\ d_linked c = true.

Definition detached (c : DisposeCall) : Prop :=
  d_indexed c = false /\ d_linked c = false.

(** The [get] calls of a history. *)
Definition is_get (op : Op) : bool :=
  match op with OpGet _ _ => true | _ => false end.

Definition count_gets (ops : list Op) : Z :=
  Z.of_nat (List.length (filter is_get ops)).

(** The callback invocations [clear] makes, one per entry, in the order of
    the index. *)
Definition clear_calls (m : list (K * Node K V)) : list DisposeCall :=
  map (fun kn => mkCall (value (snd kn)) (fst kn) CACHE_CLEAR
                        (opt_asyncDispose opts) true true) m.

(** The callback invocations of capacity evictions, one per node. *)
Definition eviction_calls (ns : list (Node K V)) : list DisposeCall :=
  map (fun n => mkCall (value n) (key n) EVICTED
                       (opt_asyncDispose opts) false false) ns.

End Engine.
End LRUCache.

(** ** The size accounting on doubles *)

(** [totalSize] is a JS number, and the source writes it in five places:
    [this.totalSize += size] ([set]), [this.totalSize -= existing.size]
    ([set] on a key that is held), [this.totalSize -= node.size] ([delete]
    and the capacity loop of [prune]) and [this.totalSize = 0] ([clear]).
    [Accounting] replays these assignments in binary64, the arithmetic the
    source runs on. *)
Module Accounting.

Inductive Update : Type :=
  | Added (size : float)
  | Removed (size : float)
  | Cleared.

Definition apply (totalSize : float) (u : Update) : float :=
  match u with
  | Added size => PrimFloat.add totalSize size
  | Removed size => PrimFloat.sub totalSize size
  | Cleared => 0%float
  end.

(** [totalSize] after the updates of a history, on a new cache. *)
Definition totalSize (history : list Update) : float :=
  fold_left apply history 0%float.

(** The sum of the sizes of the entries held, added up from 0 in the order
    of the index. *)
Definition recount (sizes : list float) : float :=
  fold_left PrimFloat.add sizes 0%float.

End Accounting.

(** ** Concrete caches used by the scenarios: string keys, integer values *)

Module Scenario.
Import DoublyLinkedList LRUCache.
Open Scope string_scope.

(** [new LRUCache()]: the defaults of the constructor. *)
Definition defaults : @Options string Z :=
  mkOptions None None 0 (fun _ _ => 1) false false false 0 false.

Definition with_max (m : Z) (o : @Options string Z) : @Options string Z :=
  mkOptions (Some m) (opt_maxSize o) (opt_ttl o) (opt_sizeCalculation o)
    (opt_dispose o) (opt_noDisposeOnSet o) (opt_allowStale o)
    (opt_pruneInterval o) (opt_asyncDispose o).
Definition with_maxSize (m : Z) (o : @Options string Z) : @Options string Z :=
  mkOptions (opt_max o) (Some m) (opt_ttl o) (opt_sizeCalculation o)
    (opt_dispose o) (opt_noDisposeOnSet o) (opt_allowStale o)
    (opt_pruneInterval o) (opt_asyncDispose o).
Definition with_ttl (t : Z) (o : @Options string Z) : @Options string Z :=
  mkOptions (opt_max o) (opt_maxSize o) t (opt_sizeCalculation o)
    (opt_dispose o) (opt_noDisposeOnSet o) (opt_allowStale o)
    (opt_pruneInterval o) (opt_asyncDispose o).
Definition with_dispose (o : @Options string Z) : @Options string Z :=
  mkOptions (opt_max o) (opt_maxSize o) (opt_ttl o) (opt_sizeCalculation o)
    true (opt_noDisposeOnSet o) (opt_allowStale o)
    (opt_pruneInterval o) (opt_asyncDispose o).
Definition with_allowStale (o : @Options string Z) : @Options string Z :=
  mkOptions (opt_max o) (opt_maxSize o) (opt_ttl o) (opt_sizeCalculation o)
    (opt_dispose o) (opt_noDisposeOnSet o) true
    (opt_pruneInterval o) (opt_asyncDispose o).

Definition fresh_cache : @State string Z := new.

Definition sized (z : Z) : ItemOptions := {| io_ttl := None; io_size := Some z |}.

(** Three nodes, added to an empty list in the order 1, 2, 3. *)
Definition node1 : Node string Z := mkNode 0 "k1" 1 1 None.
Definition node2 : Node string Z := mkNode 1 "k2" 2 1 None.
Definition node3 : Node string Z := mkNode 2 "k3" 3 1 None.

Definition three_nodes : DoublyLinkedList.t string Z :=
  addToFront node3 (addToFront node2 (addToFront node1 DoublyLinkedList.empty)).

End Scenario.

(** * Verification *)

Section Verification.
Import DoublyLinkedList LRUCache.
Context {K V : Type}.
Variable K_eq_dec : forall x y : K, {x = y} + {x <> y}.
Variable opts : @Options K V.

Local Abbreviation map_get := (map_get K_eq_dec).
Local Abbreviation map_set := (map_set K_eq_dec).
Local Abbreviation map_delete := (map_delete K_eq_dec).
Local Abbreviation delete := (delete K_eq_dec opts).
Local Abbreviation get := (get K_eq_dec opts).
Local Abbreviation has := (has K_eq_dec opts).
Local Abbreviation peek := (peek K_eq_dec opts).
Local Abbreviation prune := (prune K_eq_dec opts).
Local Abbreviation prune_expired := (prune_expired K_eq_dec opts).
Local Abbreviation prune_capacity := (prune_capacity K_eq_dec opts).
Local Abbreviation evict_tail := (evict_tail K_eq_dec opts).
Local Abbreviation disposeItem := (disposeItem K_eq_dec opts).
Local Abbreviation set := (LRUCache.set K_eq_dec opts).
Local Abbreviation set_at := (LRUCache.set_at K_eq_dec opts).
Local Abbreviation set_timed := (LRUCache.set_timed K_eq_dec opts).
Local Abbreviation deserialize_at := (LRUCache.deserialize_at K_eq_dec opts).
Local Abbreviation serialize_at := (LRUCache.serialize_at opts).
Local Abbreviation clear := (LRUCache.clear K_eq_dec opts).
Local Abbreviation deserialize := (deserialize K_eq_dec opts).
Local Abbreviation serialize := (serialize opts).
Local Abbreviation step := (step K_eq_dec opts).
Local Abbreviation run := (run K_eq_dec opts).
Local Abbreviation NodeT := (Node K V).
Local Abbreviation StateT := (@State K V).

(** Whether a dispose callback is configured, in [disposeItem]. *)
Ltac dispose_cases :=
  unfold LRUCache.disposeItem;
  match goal with
  | |- context [negb (opt_dispose ?o)] => destruct (negb (opt_dispose o))
  end.

(** ** The Map as an association list *)

Lemma map_get_In k n (m : list (K * NodeT)) :
  map_get k m = Some n -> In (k, n) m.
Proof.
  induction m as [|[k' n'] r IH]; simpl; [discriminate|].
  destruct (K_eq_dec k k') as [->|]; intros H.
  - injection H as ->. now left.
  - right. now apply IH.
Qed.

Lemma map_get_None k (m : list (K * NodeT)) :
  map_get k m = None <-> ~ In k (map fst m).
Proof.
  induction m as [|[k' n'] r IH]; simpl; [tauto|].
  destruct (K_eq_dec k k') as [->|Hne].
  - split; [discriminate|]. intros H. exfalso. apply H. now left.
  - rewrite IH. split; intros H; [intros [E|E]; [congruence|tauto]|tauto].
Qed.

Lemma In_map_get k n (m : list (K * NodeT)) :
  NoDup (map fst m) -> In (k, n) m -> map_get k m = Some n.
Proof.
  induction m as [|[k' n'] r IH]; simpl; [tauto|].
  intros Hnd [E|Hin].
  - injection E as -> ->. destruct (K_eq_dec k k); congruence.
  - inversion Hnd as [|? ? Hnot Hnd']; subst.
    destruct (K_eq_dec k k') as [->|_].
    + exfalso. apply Hnot. change k' with (fst (k', n)). now apply in_map.
    + now apply IH.
Qed.

Lemma map_delete_perm k n (m : list (K * NodeT)) :
  map_get k m = Some n -> Permutation m ((k, n) :: map_delete k m).
Proof.
  induction m as [|[k' n'] r IH]; simpl; [discriminate|].
  destruct (K_eq_dec k k') as [->|]; intros H.
  - injection H as ->. reflexivity.
  - etransitivity; [apply perm_skip, IH, H|apply perm_swap].
Qed.

Lemma map_delete_absent k (m : list (K * NodeT)) :
  map_get k m = None -> map_delete k m = m.
Proof.
  induction m as [|[k' n'] r IH]; simpl; [reflexivity|].
  destruct (K_eq_dec k k'); [discriminate|]. intros H. now rewrite IH.
Qed.

Lemma map_set_perm k n (m : list (K * NodeT)) :
  Permutation (map_set k n m) ((k, n) :: map_delete k m).
Proof.
  induction m as [|[k' n'] r IH]; simpl; [reflexivity|].
  destruct (K_eq_dec k k'); [reflexivity|].
  etransitivity; [apply perm_skip, IH|apply perm_swap].
Qed.

Lemma map_delete_keys k (m : list (K * NodeT)) :
  NoDup (map fst m) ->
  NoDup (map fst (map_delete k m)) /\ ~ In k (map fst (map_delete k m)).
Proof.
  intros Hnd. destruct (map_get k m) as [n|] eqn:E.
  - pose proof (Permutation_map fst (map_delete_perm _ _ _ E)) as P.
    pose proof (Permutation_NoDup P Hnd) as Hnd'. simpl in Hnd'.
    inversion Hnd'; tauto.
  - rewrite (map_delete_absent _ _ E). split; [assumption|].
    now apply map_get_None.
Qed.

Lemma map_get_delete_same k (m : list (K * NodeT)) :
  NoDup (map fst m) -> map_get k (map_delete k m) = None.
Proof. intros H. apply map_get_None. now apply map_delete_keys. Qed.

(** ** The chain of nodes *)

Lemma last_node_In (n : NodeT) ns : last_node ns = Some n -> In n ns.
Proof.
  induction ns as [|a r IH]; simpl; [discriminate|].
  destruct r as [|b r'].
  - intros H. injection H as ->. now left.
  - intros H. right. now apply IH.
Qed.

Lemma last_node_None (ns : list NodeT) : last_node ns = None -> ns = [].
Proof.
  induction ns as [|a r IH]; simpl; [reflexivity|].
  destruct r as [|b r']; [discriminate|].
  intros H. specialize (IH H). discriminate.
Qed.

Lemma unlink_perm (n : NodeT) ns :
  In n ns -> NoDup (map nid ns) -> Permutation ns (n :: unlink n ns).
Proof.
  induction ns as [|a r IH]; simpl; [tauto|].
  intros Hin Hnd. inversion Hnd as [|? ? Hnot Hnd']; subst.
  destruct (Nat.eqb (nid a) (nid n)) eqn:E.
  - apply Nat.eqb_eq in E. destruct Hin as [->|Hin]; [reflexivity|].
    exfalso. apply Hnot. rewrite E. now apply in_map.
  - destruct Hin as [->|Hin]; [rewrite Nat.eqb_refl in E; discriminate|].
    etransitivity; [apply perm_skip, IH; assumption|apply perm_swap].
Qed.

Lemma unlink_last (n : NodeT) ns :
  last_node ns = Some n -> S (List.length (unlink n ns)) = List.length ns.
Proof.
  induction ns as [|a r IH]; [discriminate|].
  intros H. simpl unlink. destruct (Nat.eqb (nid a) (nid n)) eqn:R;
    [reflexivity|].
  destruct r as [|b r'].
  - simpl in H. injection H as ->. rewrite Nat.eqb_refl in R. discriminate.
  - simpl List.length. f_equal. apply IH. exact H.
Qed.

Lemma sum_sizes_perm (l l' : list NodeT) :
  Permutation l l' -> sum_sizes l = sum_sizes l'.
Proof.
  induction 1; simpl; try lia.
Qed.

(** ** Preservation of [consistent] *)

Lemma consistent_new : consistent (@new K V).
Proof.
  constructor; simpl; try constructor; reflexivity.
Qed.

Lemma consistent_ext (st st' : StateT) :
  cache st' = cache st -> lst st' = lst st ->
  totalSize st' = totalSize st -> fresh st' = fresh st ->
  consistent st -> consistent st'.
Proof.
  intros Hc Hl Ht Hf [H1 H2 H3 H4 H5 H6 H7].
  constructor; rewrite ?Hc, ?Hl, ?Ht, ?Hf; assumption.
Qed.

Lemma consistent_dispose k v r (st : StateT) :
  consistent st -> consistent (disposeItem k v r st).
Proof.
  dispose_cases; [tauto|].
  intros C. now apply (consistent_ext st).
Qed.

Lemma consistent_listed (st : StateT) k n :
  consistent st -> map_get k (cache st) = Some n ->
  In n (dl_items (lst st)) /\ key n = k.
Proof.
  intros C H. apply map_get_In in H. split.
  - apply (Permutation_in _ (c_same _ C)).
    change n with (snd (k, n)). now apply in_map.
  - pose proof (c_filed _ C) as F. rewrite Forall_forall in F.
    apply (F _ H).
Qed.

Lemma consistent_indexed (st : StateT) n :
  consistent st -> In n (dl_items (lst st)) ->
  map_get (key n) (cache st) = Some n.
Proof.
  intros C H. apply (Permutation_in _ (Permutation_sym (c_same _ C))) in H.
  apply in_map_iff in H. destruct H as [[k n'] [E Hin]]. simpl in E. subst n'.
  pose proof (c_filed _ C) as F. rewrite Forall_forall in F.
  pose proof (F _ Hin) as Hk. simpl in Hk. rewrite Hk.
  apply In_map_get; [apply C|assumption].
Qed.

Lemma consistent_detach (st st' : StateT) k node :
  consistent st -> map_get k (cache st) = Some node ->
  cache st' = map_delete k (cache st) ->
  lst st' = remove node (lst st) ->
  totalSize st' = totalSize st - DoublyLinkedList.size node ->
  fresh st' = fresh st ->
  consistent st'.
Proof.
  intros C Hget Hc Hl Ht Hf.
  destruct (consistent_listed _ _ _ C Hget) as [Hin Hkey].
  pose proof (unlink_perm _ _ Hin (c_ids _ C)) as PL.
  pose proof (Permutation_map snd (map_delete_perm _ _ _ Hget)) as PC.
  simpl in PC.
  assert (PS : Permutation (map snd (map_delete k (cache st)))
                           (unlink node (dl_items (lst st)))).
  { apply (Permutation_cons_inv (a := node)).
    rewrite <- PC, <- PL. apply C. }
  constructor; rewrite ?Hc, ?Hl, ?Ht, ?Hf; simpl.
  - apply map_delete_keys, C.
  - pose proof (Permutation_Forall (map_delete_perm _ _ _ Hget) (c_filed _ C)) as F.
    now inversion F.
  - exact PS.
  - rewrite (c_length _ C). apply Permutation_length in PL. simpl in PL. lia.
  - rewrite (c_total _ C), (sum_sizes_perm _ _ PC). simpl. lia.
  - pose proof (Permutation_NoDup (Permutation_map nid PL) (c_ids _ C)) as N.
    now inversion N.
  - pose proof (Permutation_Forall PL (c_fresh _ C)) as F. now inversion F.
Qed.

Lemma consistent_delete k r (st : StateT) :
  consistent st -> consistent (snd (delete k r st)).
Proof.
  intros C. unfold LRUCache.delete.
  destruct (map_get k (cache st)) as [node|] eqn:E; simpl; [|assumption].
  apply (consistent_detach st _ k node C E); dispose_cases; reflexivity.
Qed.

Lemma consistent_counters (st : StateT) h m d :
  consistent st ->
  consistent (mkState (cache st) (lst st) (totalSize st) h m d (fresh st)).
Proof. intros C. now apply (consistent_ext st). Qed.

Lemma consistent_moveToFront (st : StateT) k node :
  consistent st -> map_get k (cache st) = Some node ->
  consistent (with_lst (moveToFront node (lst st)) st).
Proof.
  intros C Hget.
  destruct (consistent_listed _ _ _ C Hget) as [Hin _].
  pose proof (unlink_perm _ _ Hin (c_ids _ C)) as PL.
  assert (G : consistent (with_lst (addToFront node (remove node (lst st))) st)).
  { constructor; simpl; try apply C.
    - rewrite <- PL. apply C.
    - rewrite (c_length _ C). apply Permutation_length in PL. simpl in PL. lia.
    - apply (Permutation_NoDup (Permutation_map nid PL)), C.
    - apply (Permutation_Forall PL), C. }
  unfold moveToFront. destruct (head (lst st)) as [h|]; [|exact G].
  destruct (Nat.eqb (nid h) (nid node)); [|exact G].
  now apply (consistent_ext st).
Qed.

Lemma consistent_get k now (st : StateT) :
  consistent st -> consistent (snd (get k now st)).
Proof.
  intros C. unfold LRUCache.get.
  destruct (map_get k (cache st)) as [node|] eqn:E; simpl.
  - destruct (expired_lt node now).
    + destruct (opt_allowStale opts); simpl.
      * now apply consistent_counters.
      * apply consistent_counters, consistent_delete, C.
    + simpl. apply (consistent_counters (with_lst _ st)).
      now apply (consistent_moveToFront st k).
  - now apply consistent_counters.
Qed.

Lemma consistent_has k now (st : StateT) :
  consistent st -> consistent (snd (has k now st)).
Proof.
  unfold LRUCache.has. destruct (map_get k (cache st)); [|tauto].
  destruct (_ && _); tauto.
Qed.

Lemma consistent_peek k now (st : StateT) :
  consistent st -> consistent (snd (peek k now st)).
Proof.
  unfold LRUCache.peek. destruct (map_get k (cache st)); [|tauto].
  destruct (_ && _); tauto.
Qed.

Lemma consistent_prune_expired now (st : StateT) :
  consistent st -> consistent (snd (prune_expired now st)).
Proof.
  unfold LRUCache.prune_expired.
  generalize (cache st) as m. generalize 0 as p. revert st.
  intros st p m. revert st p.
  induction m as [|kn r IH]; intros st p C; simpl; [assumption|].
  destruct (expired_le (snd kn) now); [|now apply IH].
  apply IH. simpl. now apply consistent_delete.
Qed.

Lemma consistent_evict_tail (st st' : StateT) :
  consistent st -> evict_tail st = Some st' -> consistent st'.
Proof.
  intros C. unfold LRUCache.evict_tail, removeTail, tail.
  destruct (last_node (dl_items (lst st))) as [node|] eqn:E; [|discriminate].
  intros H. injection H as <-.
  pose proof (consistent_indexed _ _ C (last_node_In _ _ E)) as Hget.
  apply (consistent_detach st _ (key node) node C Hget);
    dispose_cases; reflexivity.
Qed.

Lemma consistent_prune_capacity fuel p (st : StateT) :
  consistent st -> consistent (snd (prune_capacity fuel p st)).
Proof.
  revert p st. induction fuel as [|f IH]; intros p st C; simpl; [assumption|].
  destruct (over_capacity opts st); [|assumption].
  destruct (evict_tail st) as [st'|] eqn:E; [|assumption].
  apply IH. now apply (consistent_evict_tail st).
Qed.

Lemma consistent_prune now (st : StateT) :
  consistent st -> consistent (snd (prune now st)).
Proof.
  intros C. unfold LRUCache.prune.
  pose proof (consistent_prune_expired now st C) as C1.
  destruct (prune_expired now st) as [p st1]. simpl in C1.
  now apply consistent_prune_capacity.
Qed.

Lemma consistent_clear (st : StateT) : consistent (clear st).
Proof.
  unfold LRUCache.clear. constructor; simpl; try constructor; reflexivity.
Qed.

Lemma consistent_attach (stD st' : StateT) k node :
  consistent stD -> ~ In k (map fst (cache stD)) ->
  key node = k -> nid node = fresh stD ->
  Permutation (cache st') ((k, node) :: cache stD) ->
  lst st' = addToFront node (lst stD) ->
  totalSize st' = totalSize stD + DoublyLinkedList.size node ->
  fresh st' = S (fresh stD) ->
  consistent st'.
Proof.
  intros C Hk Hkey Hid P Hl Ht Hf.
  assert (Hnew : ~ In (nid node) (map nid (dl_items (lst stD)))).
  { intros H. apply in_map_iff in H. destruct H as [n [E Hin]].
    pose proof (c_fresh _ C) as F. rewrite Forall_forall in F.
    specialize (F _ Hin). lia. }
  constructor; rewrite ?Hl, ?Ht, ?Hf; simpl.
  - apply (Permutation_NoDup (Permutation_sym (Permutation_map fst P))).
    simpl. constructor; [assumption|apply C].
  - apply (Permutation_Forall (Permutation_sym P)).
    constructor; [assumption|apply C].
  - rewrite (Permutation_map snd P). simpl. apply perm_skip, C.
  - rewrite (c_length _ C). lia.
  - rewrite (sum_sizes_perm _ _ (Permutation_map snd P)). simpl.
    rewrite (c_total _ C). lia.
  - constructor; [assumption|apply C].
  - constructor; [lia|].
    apply (Forall_impl _ (P := fun n => (nid n < fresh stD)%nat));
      [intros; lia|apply C].
Qed.

Lemma consistent_set_entry k v o now (st : StateT) :
  consistent st -> consistent (set_entry K_eq_dec opts k v o now st).
Proof.
  intros C. unfold set_entry.
  destruct (map_get k (cache st)) as [ex|] eqn:E.
  - set (stD := mkState (map_delete k (cache st)) (remove ex (lst st))
                  (totalSize st - DoublyLinkedList.size ex)
                  (hits st) (misses st) (disposed st) (fresh st)).
    assert (CD : consistent stD)
      by (apply (consistent_detach st stD k ex C E); reflexivity).
    destruct (negb (opt_noDisposeOnSet opts));
      [dispose_cases|];
      (eapply (consistent_attach stD _ k (mkNode (fresh st) k v _ _));
       [ exact CD
       | apply (map_delete_keys k (cache st)), C
       | reflexivity
       | reflexivity
       | apply map_set_perm
       | reflexivity
       | reflexivity
       | reflexivity ]).
  - eapply (consistent_attach st _ k (mkNode (fresh st) k v _ _));
      [ exact C
      | now apply map_get_None
      | reflexivity
      | reflexivity
      | simpl; rewrite <- (map_delete_absent k (cache st) E) at 2;
        apply map_set_perm
      | reflexivity
      | reflexivity
      | reflexivity ].
Qed.

Lemma consistent_set k v o now (st : StateT) :
  consistent st -> consistent (set k v o now st).
Proof.
  intros C. unfold LRUCache.set.
  now apply consistent_prune, consistent_set_entry.
Qed.

Lemma consistent_set_at k v o now now' (st : StateT) :
  consistent st -> consistent (set_at k v o now now' st).
Proof.
  intros C. unfold LRUCache.set_at.
  now apply consistent_prune, consistent_set_entry.
Qed.

Lemma consistent_deserialize_at data (st : StateT) :
  consistent (deserialize_at data st).
Proof.
  unfold LRUCache.deserialize_at.
  pose proof (consistent_clear st) as C. revert C.
  generalize (clear st). induction data as [|e r IH]; intros s C; simpl;
    [assumption|].
  apply IH. now apply consistent_set_at.
Qed.

Lemma consistent_deserialize data now (st : StateT) :
  consistent (deserialize data now st).
Proof.
  unfold LRUCache.deserialize.
  pose proof (consistent_clear st) as C. revert C.
  generalize (clear st). induction data as [|e r IH]; intros s C; simpl;
    [assumption|].
  apply IH. now apply consistent_set.
Qed.

Lemma consistent_step op (st : StateT) :
  consistent st -> consistent (step op st).
Proof.
  intros C. destruct op; simpl.
  - now apply consistent_get.
  - now apply consistent_has.
  - now apply consistent_peek.
  - now apply consistent_set.
  - now apply consistent_delete.
  - apply consistent_clear.
  - now apply consistent_prune.
  - assumption.
  - apply consistent_deserialize.
  - now apply consistent_set_at.
  - apply consistent_deserialize_at.
Qed.

Lemma consistent_run ops (st : StateT) :
  consistent st -> consistent (run ops st).
Proof.
  revert st. induction ops as [|op r IH]; intros st C; simpl; [assumption|].
  apply IH. now apply consistent_step.
Qed.

Lemma consistent_list_keys (st : StateT) :
  consistent st -> NoDup (map key (dl_items (lst st))).
Proof.
  intros C.
  apply (Permutation_NoDup (Permutation_map key (c_same _ C))).
  replace (map key (map snd (cache st))) with (map fst (cache st));
    [apply C|].
  rewrite map_map. apply map_ext_in. intros kn Hin.
  pose proof (c_filed _ C) as F. rewrite Forall_forall in F.
  symmetry. now apply F.
Qed.

(** ** Index, list and size accessor (claim C4) *)

(** C4.  After any sequence of public operations on a new cache (get, has,
    peek, set, delete, clear, prune, serialize, deserialize, in any order and
    with any arguments), the [size] accessor, the number of keys in the
    index, the [length] field of the recency list and the number of nodes
    actually chained in it are all equal, and no node object and no key
    occurs twice in the list. *)
Theorem size_index_list_agree (ops : list (@Op K V)) :
  let st := run ops new in
  LRUCache.size st = Z.of_nat (List.length (map fst (cache st))) /\
  LRUCache.size st = dl_length (lst st) /\
  dl_length (lst st) = Z.of_nat (List.length (dl_items (lst st))) /\
  NoDup (map nid (dl_items (lst st))) /\
  NoDup (map key (dl_items (lst st))).
Proof.
  intros st. pose proof (consistent_run ops _ consistent_new) as C.
  fold st in C. unfold LRUCache.size, map_size.
  repeat split.
  - now rewrite length_map.
  - rewrite (c_length _ C).
    rewrite <- (Permutation_length (c_same _ C)). now rewrite length_map.
  - apply C.
  - apply C.
  - now apply consistent_list_keys.
Qed.

(** ** Size accounting in exact arithmetic *)

(** As long as the sizes are integers and no sum leaves the range in which
    doubles are exact, which is the arithmetic of this engine, the
    incrementally maintained [totalSize] is the sum of the [size] fields
    recomputed over the index, and over the recency list: the bookkeeping
    forgets no update.  What it loses on doubles is lost to rounding
    ([Accounting]). *)
Lemma totalSize_is_recount (ops : list (@Op K V)) :
  let st := run ops new in
  totalSize st = sum_sizes (map snd (cache st)) /\
  totalSize st = sum_sizes (dl_items (lst st)).
Proof.
  intros st. pose proof (consistent_run ops _ consistent_new) as C.
  fold st in C. split; [apply C|].
  rewrite (c_total _ C). apply sum_sizes_perm, C.
Qed.

(** ** has and peek are reads (claim C9) *)

Lemma has_state (st : StateT) k now : snd (has k now st) = st.
Proof.
  unfold LRUCache.has.
  destruct (map_get k (cache st)) as [node|]; [|reflexivity].
  now destruct (expired_lt node now && negb (opt_allowStale opts)).
Qed.

Lemma peek_state (st : StateT) k now : snd (peek k now st) = st.
Proof.
  unfold LRUCache.peek.
  destruct (map_get k (cache st)) as [node|]; [|reflexivity].
  now destruct (expired_lt node now && negb (opt_allowStale opts)).
Qed.

(** C9.  For every key, clock reading and cache state, [has] and [peek]
    return the state they were given: same index, same recency list (no
    touch), same [hits] and [misses], same dispose trace (no removal), also
    when the entry looked up is expired. *)
Theorem has_peek_leave_state (st : StateT) k now :
  snd (has k now st) = st /\ snd (peek k now st) = st.
Proof. split; [apply has_state|apply peek_state]. Qed.

(** ** Stale reads *)

Lemma get_stale (st : StateT) k node e now :
  map_get k (cache st) = Some node ->
  expiry node = Some e -> e < now ->
  opt_allowStale opts = true ->
  get k now st = (Some (value node), with_hits (hits st + 1) st) /\
  fst (has k now st) = true.
Proof.
  intros Hget He Hlt Hstale. unfold LRUCache.get, LRUCache.has.
  rewrite Hget. unfold expired_lt. rewrite He, Hstale.
  apply Z.ltb_lt in Hlt. rewrite Hlt. split; reflexivity.
Qed.

(** ** The capacity loop *)

(** Fuel beyond [capacity_fuel] changes nothing: the loop has left by
    itself, through its condition or through [break]. *)
Lemma evict_tail_shrinks (st st' : StateT) :
  evict_tail st = Some st' ->
  S (List.length (dl_items (lst st'))) = List.length (dl_items (lst st)).
Proof.
  unfold LRUCache.evict_tail, removeTail, tail.
  destruct (last_node (dl_items (lst st))) as [node|] eqn:E; [|discriminate].
  intros H. injection H as <-.
  pose proof (unlink_last _ _ E) as G.
  dispose_cases; exact G.
Qed.

Lemma prune_capacity_exit fuel p (st : StateT) :
  (List.length (dl_items (lst st)) < fuel)%nat ->
  let r := prune_capacity fuel p st in
  over_capacity opts (snd r) = false \/ dl_items (lst (snd r)) = [].
Proof.
  revert p st. induction fuel as [|f IH]; intros p st Hlt; [lia|].
  simpl. destruct (over_capacity opts st) eqn:Ho; [|now left].
  destruct (evict_tail st) as [st'|] eqn:E.
  - apply IH. apply evict_tail_shrinks in E. lia.
  - right. simpl. unfold LRUCache.evict_tail, removeTail, tail in E.
    destruct (last_node (dl_items (lst st))) eqn:L; [discriminate|].
    now apply last_node_None.
Qed.

Lemma prune_capacity_enough fuel p (st : StateT) :
  (List.length (dl_items (lst st)) < fuel)%nat ->
  prune_capacity fuel p st = prune_capacity (capacity_fuel st) p st.
Proof.
  unfold capacity_fuel.
  remember (List.length (dl_items (lst st))) as n eqn:Hn.
  revert fuel p st Hn. induction n as [|n IH]; intros fuel p st Hn Hlt.
  - destruct fuel as [|f]; [lia|]. simpl.
    destruct (over_capacity opts st); [|reflexivity].
    destruct (evict_tail st) as [st'|] eqn:E; [|reflexivity].
    apply evict_tail_shrinks in E. lia.
  - destruct fuel as [|f]; [lia|]. simpl.
    destruct (over_capacity opts st); [|reflexivity].
    destruct (evict_tail st) as [st'|] eqn:E; [|reflexivity].
    pose proof (evict_tail_shrinks _ _ E) as Hs.
    assert (Hn' : n = List.length (dl_items (lst st'))) by lia.
    rewrite (IH f (p + 1) st' Hn') by lia. reflexivity.
Qed.

(** ** A single entry larger than [maxSize] (claim C1) *)



(** ** When the dispose callback runs *)

Lemma fired_same (st st' : StateT) P :
  disposed st' = disposed st -> fired st st' P.
Proof. intros H. exists []. rewrite app_nil_r. now split. Qed.

Lemma fired_trans (a b c : StateT) P :
  fired a b P -> fired b c P -> fired a c P.
Proof.
  intros [x [Hx Px]] [y [Hy Py]]. exists (x ++ y). split.
  - now rewrite Hy, Hx, app_assoc.
  - now apply Forall_app.
Qed.

Lemma fired_weaken (a b : StateT) (P Q : DisposeCall -> Prop) :
  (forall c, P c -> Q c) -> fired a b P -> fired a b Q.
Proof.
  intros H [x [Hx Px]]. exists x. split; [assumption|].
  now apply (Forall_impl _ H).
Qed.

Lemma fired_dispose k v r (st : StateT) (P : DisposeCall -> Prop) :
  P (mkCall v k r (opt_asyncDispose opts) (indexed K_eq_dec k (cache st))
       (linked K_eq_dec k (lst st))) ->
  fired st (disposeItem k v r st) P.
Proof.
  intros H. dispose_cases; [now apply fired_same|].
  eexists. split; [reflexivity|]. now constructor.
Qed.

Lemma linked_In (n : NodeT) l : In n (dl_items l) -> linked K_eq_dec (key n) l = true.
Proof.
  intros H. unfold linked. apply existsb_exists. exists n. split; [assumption|].
  destruct (K_eq_dec (key n) (key n)); congruence.
Qed.

Lemma linked_absent k (l : DoublyLinkedList.t K V) :
  ~ In k (map key (dl_items l)) -> linked K_eq_dec k l = false.
Proof.
  intros H. unfold linked. apply not_true_is_false. intros E.
  apply existsb_exists in E. destruct E as [n [Hin Hk]].
  destruct (K_eq_dec (key n) k) as [<-|]; [|discriminate].
  apply H. now apply in_map.
Qed.

Lemma consistent_attached (st : StateT) k node :
  consistent st -> map_get k (cache st) = Some node ->
  indexed K_eq_dec (key node) (cache st) = true /\
  linked K_eq_dec (key node) (lst st) = true.
Proof.
  intros C H. destruct (consistent_listed _ _ _ C H) as [Hin Hk]. split.
  - unfold indexed. now rewrite Hk, H.
  - now apply linked_In.
Qed.

Lemma delete_fired k r (st : StateT) :
  consistent st ->
  fired st (snd (delete k r st)) (fun c => d_reason c = r /\ attached c).
Proof.
  intros C. unfold LRUCache.delete.
  destruct (map_get k (cache st)) as [node|] eqn:E; [|now apply fired_same].
  cbn [snd]. eapply fired_trans; [|apply fired_same; reflexivity].
  apply fired_dispose. split; [reflexivity|].
  now apply (consistent_attached st k).
Qed.

Lemma evict_tail_fired (st st' : StateT) :
  consistent st -> evict_tail st = Some st' ->
  fired st st' (fun c => d_reason c = EVICTED /\ detached c).
Proof.
  intros C. unfold LRUCache.evict_tail, removeTail, tail.
  destruct (last_node (dl_items (lst st))) as [node|] eqn:E; [|discriminate].
  intros H. injection H as <-.
  pose proof (last_node_In _ _ E) as Hin.
  eapply fired_trans; [|apply fired_same; reflexivity].
  eapply fired_trans; [apply fired_same|apply fired_dispose].
  { reflexivity. }
  split; [reflexivity|].
  split; cbn [d_indexed d_linked cache lst with_cache with_lst].
  - unfold indexed. rewrite map_get_delete_same; [reflexivity|apply C].
  - apply linked_absent. cbn [remove dl_items].
    pose proof (unlink_perm _ _ Hin (c_ids _ C)) as PL.
    pose proof (Permutation_NoDup (Permutation_map key PL)
                  (consistent_list_keys _ C)) as N.
    now inversion N.
Qed.

Lemma prune_expired_loop_fired now (m : list (K * NodeT)) :
  forall p (s : StateT), consistent s ->
  fired s
    (snd (fold_left
            (fun (acc : Z * StateT) (kn : K * NodeT) =>
               if expired_le (snd kn) now
               then (fst acc + 1, snd (delete (fst kn) EXPIRED (snd acc)))
               else acc)
            m (p, s)))
    (fun c => d_reason c = EXPIRED /\ attached c).
Proof.
  induction m as [|kn r IH]; intros p s C; cbn [fold_left];
    [now apply fired_same|].
  destruct (expired_le (snd kn) now); [|now apply IH].
  cbn [fst snd].
  eapply fired_trans; [apply (delete_fired (fst kn) EXPIRED s C)|].
  apply IH. now apply consistent_delete.
Qed.

Lemma prune_capacity_fired fuel p (st : StateT) :
  consistent st ->
  fired st (snd (prune_capacity fuel p st))
        (fun c => d_reason c = EVICTED /\ detached c).
Proof.
  revert p st. induction fuel as [|f IH]; intros p st C; cbn [prune_capacity];
    [now apply fired_same|].
  destruct (over_capacity opts st); [|now apply fired_same].
  destruct (evict_tail st) as [st'|] eqn:E; [|now apply fired_same].
  eapply fired_trans; [apply (evict_tail_fired _ _ C E)|].
  apply IH. now apply (consistent_evict_tail st).
Qed.

Lemma prune_fired now (st : StateT) :
  consistent st ->
  fired st (snd (prune now st))
        (fun c => (d_reason c = EXPIRED /\ attached c) \/
                  (d_reason c = EVICTED /\ detached c)).
Proof.
  intros C. unfold LRUCache.prune.
  pose proof (prune_expired_loop_fired now (cache st) 0 st C) as F1.
  pose proof (consistent_prune_expired now st C) as C1.
  unfold LRUCache.prune_expired in *.
  destruct (fold_left _ (cache st) (0, st)) as [p st1]. cbn [snd] in *.
  eapply fired_trans.
  - eapply fired_weaken; [|exact F1]. intros c H. now left.
  - eapply fired_weaken; [|apply prune_capacity_fired, C1].
    intros c H. now right.
Qed.






(** ** Eviction by count follows recency *)

Lemma unlink_keys (ex : NodeT) ns :
  In ex ns -> NoDup (map nid ns) -> NoDup (map key ns) ->
  map key (unlink ex ns) = List.remove K_eq_dec (key ex) (map key ns).
Proof.
  induction ns as [|a r IH]; [contradiction|].
  intros Hin Hid Hk. cbn [unlink map List.remove].
  inversion Hid as [|? ? Hid1 Hid2]; inversion Hk as [|? ? Hk1 Hk2]; subst.
  destruct (Nat.eqb (nid a) (nid ex)) eqn:E.
  - apply Nat.eqb_eq in E.
    assert (a = ex) as ->.
    { destruct Hin as [->|Hin]; [reflexivity|].
      exfalso. apply Hid1. rewrite E. now apply in_map. }
    destruct (K_eq_dec (key ex) (key ex)) as [_|N]; [|congruence].
    symmetry. now apply notin_remove.
  - destruct Hin as [->|Hin]; [rewrite Nat.eqb_refl in E; discriminate|].
    destruct (K_eq_dec (key ex) (key a)) as [Ek|_].
    + exfalso. apply Hk1. rewrite <- Ek. now apply in_map.
    + cbn [map]. f_equal. now apply IH.
Qed.

Lemma unlink_tail (n : NodeT) ns :
  last_node ns = Some n -> NoDup (map nid ns) -> unlink n ns = removelast ns.
Proof.
  induction ns as [|a r IH]; [discriminate|].
  intros H Hid. inversion Hid as [|? ? Hid1 Hid2]; subst.
  destruct r as [|b r'].
  - cbn in H. injection H as ->. cbn. now rewrite Nat.eqb_refl.
  - change (last_node (a :: b :: r')) with (last_node (b :: r')) in H.
    cbn [unlink]. destruct (Nat.eqb (nid a) (nid n)) eqn:E.
    + apply Nat.eqb_eq in E. exfalso. apply Hid1. rewrite E.
      apply in_map, last_node_In, H.
    + change (removelast (a :: b :: r')) with (a :: removelast (b :: r')).
      f_equal. now apply IH.
Qed.

Lemma firstn_In (A : Type) (x : A) n (l : list A) :
  In x (firstn n l) -> In x l.
Proof.
  intros H. rewrite <- (firstn_skipn n l). apply in_or_app. now left.
Qed.




Lemma prune_expired_none now (st : StateT) :
  Forall (fun kn => expired_le (snd kn) now = false) (cache st) ->
  prune_expired now st = (0, st).
Proof.
  unfold LRUCache.prune_expired. generalize (0, st) as acc.
  induction (cache st) as [|kn r IH]; intros acc H; [reflexivity|].
  inversion H as [|? ? H1 H2]; subst. cbn [fold_left]. rewrite H1.
  now apply IH.
Qed.

Lemma consistent_size (st : StateT) :
  consistent st -> LRUCache.size st = Z.of_nat (List.length (dl_items (lst st))).
Proof.
  intros C. unfold LRUCache.size, map_size.
  now rewrite <- (Permutation_length (c_same _ C)), length_map.
Qed.

Lemma consistent_empty (st : StateT) :
  consistent st -> dl_items (lst st) = [] -> cache st = [].
Proof.
  intros C H. pose proof (c_same _ C) as P. rewrite H in P.
  apply Permutation_sym, Permutation_nil in P.
  now destruct (cache st).
Qed.

Lemma evict_tail_items (st st' : StateT) :
  evict_tail st = Some st' ->
  exists node, last_node (dl_items (lst st)) = Some node /\
               dl_items (lst st') = unlink node (dl_items (lst st)).
Proof.
  unfold LRUCache.evict_tail, removeTail, tail.
  destruct (last_node (dl_items (lst st))) as [node|]; [|discriminate].
  intros H. injection H as <-. exists node. split; [reflexivity|].
  now dispose_cases.
Qed.

Lemma evict_tail_some (st : StateT) :
  dl_items (lst st) <> [] -> exists st', evict_tail st = Some st'.
Proof.
  intros H. unfold LRUCache.evict_tail, removeTail, tail.
  destruct (last_node (dl_items (lst st))) as [node|] eqn:E.
  - eexists. reflexivity.
  - now apply last_node_None in E.
Qed.

Lemma prune_capacity_by_count m fuel p (st : StateT) :
  consistent st -> opt_maxSize opts = None -> opt_max opts = Some m ->
  0 <= m -> (List.length (dl_items (lst st)) < fuel)%nat ->
  dl_items (lst (snd (prune_capacity fuel p st)))
  = firstn (Z.to_nat m) (dl_items (lst st)).
Proof.
  intros C Hs Hm Hpos. revert p st C.
  induction fuel as [|f IH]; intros p st C Hlt; [lia|].
  cbn [prune_capacity]. unfold over_capacity. rewrite Hs, Hm, orb_false_r.
  rewrite (consistent_size _ C).
  destruct (Z.of_nat (List.length (dl_items (lst st))) >? m) eqn:G.
  - apply Z.gtb_lt in G.
    destruct (evict_tail_some st) as [st' E].
    { intros N. rewrite N in G. cbn in G. lia. }
    rewrite E. destruct (evict_tail_items _ _ E) as [node [L I]].
    rewrite (unlink_tail _ _ L (c_ids _ C)) in I.
    rewrite IH.
    + rewrite I. apply firstn_removelast. lia.
    + now apply (consistent_evict_tail st).
    + apply evict_tail_shrinks in E. lia.
  - cbn [snd]. symmetry. apply firstn_all2.
    rewrite Z.gtb_ltb in G. apply Z.ltb_ge in G. lia.
Qed.

Lemma set_entry_items k v o now (st : StateT) :
  dl_items (lst (set_entry K_eq_dec opts k v o now st))
  = mkNode (fresh st) k v (item_size opts o v k) (item_expiry opts o now)
    :: match map_get k (cache st) with
       | Some ex => unlink ex (dl_items (lst st))
       | None => dl_items (lst st)
       end.
Proof.
  unfold set_entry. destruct (map_get k (cache st)); [|reflexivity].
  destruct (negb (opt_noDisposeOnSet opts)); [|reflexivity].
  now dispose_cases.
Qed.

Lemma set_entry_keys k v o now (st : StateT) :
  consistent st ->
  map key (dl_items (lst (set_entry K_eq_dec opts k v o now st)))
  = k :: List.remove K_eq_dec k (map key (dl_items (lst st))).
Proof.
  intros C. rewrite set_entry_items. cbn [map key]. f_equal.
  destruct (map_get k (cache st)) as [ex|] eqn:E.
  - destruct (consistent_listed _ _ _ C E) as [Hin Hk]. rewrite <- Hk.
    apply unlink_keys; [assumption|apply C|now apply consistent_list_keys].
  - symmetry. apply notin_remove. intros H.
    apply map_get_None in E. apply E.
    apply in_map_iff in H. destruct H as [n [Hk Hin]].
    pose proof (consistent_indexed _ _ C Hin) as G.
    apply map_get_In in G. apply (in_map fst) in G. now rewrite <- Hk.
Qed.

Lemma unlink_Forall (P : NodeT -> Prop) n ns :
  Forall P ns -> Forall P (unlink n ns).
Proof.
  induction 1 as [|a r Ha Hr IH]; cbn; [constructor|].
  destruct (Nat.eqb (nid a) (nid n)); [assumption|now constructor].
Qed.

Lemma firstn_Forall (A : Type) (P : A -> Prop) n (l : list A) :
  Forall P l -> Forall P (firstn n l).
Proof.
  rewrite !Forall_forall. intros H x Hx. apply H. now apply firstn_In in Hx.
Qed.

Lemma consistent_listed_key (st : StateT) k :
  consistent st ->
  In k (map key (dl_items (lst st))) <-> map_get k (cache st) <> None.
Proof.
  intros C. split.
  - intros H. apply in_map_iff in H. destruct H as [n [Hk Hin]].
    rewrite <- Hk, (consistent_indexed _ _ C Hin). discriminate.
  - intros H. destruct (map_get k (cache st)) as [n|] eqn:E; [|congruence].
    destruct (consistent_listed _ _ _ C E) as [Hin Hk].
    rewrite <- Hk. now apply in_map.
Qed.

Lemma has_without_expiry k now (st : StateT) :
  consistent st ->
  Forall (fun n => expiry n = None) (dl_items (lst st)) ->
  fst (has k now st) = true <-> In k (map key (dl_items (lst st))).
Proof.
  intros C F. rewrite (consistent_listed_key _ k C). unfold LRUCache.has.
  destruct (map_get k (cache st)) as [n|] eqn:E.
  - destruct (consistent_listed _ _ _ C E) as [Hin _].
    rewrite Forall_forall in F. unfold expired_lt. rewrite (F _ Hin).
    cbn. split; [discriminate|reflexivity].
  - cbn. split; [discriminate|congruence].
Qed.

Lemma run_snoc ops op (st : StateT) :
  run (ops ++ [op]) st = step op (run ops st).
Proof. unfold LRUCache.run. now rewrite fold_left_app. Qed.

Lemma moveToFront_keys (st : StateT) k node :
  consistent st -> map_get k (cache st) = Some node ->
  map key (dl_items (moveToFront node (lst st)))
  = k :: List.remove K_eq_dec k (map key (dl_items (lst st))).
Proof.
  intros C Hget. destruct (consistent_listed _ _ _ C Hget) as [Hin Hk].
  pose proof (consistent_list_keys _ C) as Hkeys.
  assert (G : map key (dl_items (addToFront node (remove node (lst st))))
              = k :: List.remove K_eq_dec k (map key (dl_items (lst st)))).
  { cbn [addToFront remove dl_items map]. rewrite Hk. f_equal.
    rewrite <- Hk. apply unlink_keys; [assumption|apply C|assumption]. }
  unfold moveToFront, head.
  destruct (dl_items (lst st)) as [|h r] eqn:E; [exact G|]. cbn [hd_error].
  destruct (Nat.eqb (nid h) (nid node)) eqn:N; [|exact G].
  apply Nat.eqb_eq in N. rewrite E.
  assert (h = node) as ->.
  { destruct Hin as [->|Hin]; [reflexivity|].
    pose proof (c_ids _ C) as Hid. rewrite E in Hid. cbn in Hid.
    inversion Hid as [|? ? Hn _]; subst. exfalso. apply Hn. rewrite N.
    now apply in_map. }
  cbn [map List.remove]. rewrite Hk.
  destruct (K_eq_dec k k) as [_|X]; [|congruence]. f_equal.
  symmetry. apply notin_remove. cbn in Hkeys. rewrite Hk in Hkeys.
  now inversion Hkeys.
Qed.

Lemma run_follows_lru m (ops : list (@Op K V)) :
  opt_maxSize opts = None -> opt_max opts = Some m -> 0 <= m ->
  Forall (plain_access opts) ops ->
  let st := run ops new in
  consistent st /\
  Forall (fun n => expiry n = None) (dl_items (lst st)) /\
  map key (dl_items (lst st))
  = fold_left (lru_step K_eq_dec (Z.to_nat m)) ops [].
Proof.
  intros Hs Hm Hpos. induction ops as [|op ops IH] using rev_ind; intros F.
  - cbn. split; [apply consistent_new|]. split; constructor.
  - apply Forall_app in F. destruct F as [F Fop].
    inversion Fop as [|? ? Hop _]; subst.
    destruct (IH F) as (C & E & Hk). clear IH.
    rewrite run_snoc, fold_left_app. cbn [fold_left].
    set (st := run ops new) in *.
    set (acc := fold_left (lru_step K_eq_dec (Z.to_nat m)) ops []) in *.
    split; [now apply consistent_step|].
    assert (Hset : forall k v o now now',
               item_ttl opts o <= 0 ->
               Forall (fun n => expiry n = None)
                      (dl_items (lst (set_at k v o now now' st))) /\
               map key (dl_items (lst (set_at k v o now now' st)))
               = firstn (Z.to_nat m) (k :: List.remove K_eq_dec k acc)).
    { clear Hop Fop. intros k v o now now' Hop.
      set (s5 := set_entry K_eq_dec opts k v o now st).
      pose proof (consistent_set_entry k v o now st C) as C5. fold s5 in C5.
      assert (E5 : Forall (fun n => expiry n = None) (dl_items (lst s5))).
      { unfold s5. rewrite set_entry_items. constructor.
        - cbn. unfold item_expiry.
          replace (item_ttl opts o >? 0) with false; [reflexivity|].
          symmetry. rewrite Z.gtb_ltb. apply Z.ltb_ge. exact Hop.
        - destruct (map_get k (cache st)); [now apply unlink_Forall|assumption]. }
      assert (X5 : prune_expired now' s5 = (0, s5)).
      { apply prune_expired_none.
        pose proof (Permutation_Forall (Permutation_sym (c_same _ C5)) E5) as G.
        rewrite Forall_map in G.
        apply (Forall_impl _ (P := fun kn => expiry (snd kn) = None));
          [|exact G].
        intros kn H. unfold expired_le. now rewrite H. }
      assert (I5 : dl_items (lst (set_at k v o now now' st))
                   = firstn (Z.to_nat m) (dl_items (lst s5))).
      { unfold LRUCache.set_at, LRUCache.prune. fold s5. rewrite X5.
        apply prune_capacity_by_count; try assumption.
        unfold capacity_fuel. lia. }
      split.
      * rewrite I5. now apply firstn_Forall.
      * rewrite I5, <- firstn_map. unfold s5.
        now rewrite (set_entry_keys k v o now st C), Hk. }
    destruct op as [k now|k now|k now|k v o now|k r| |now|now|data now
                   |k v o now now'|data];
      cbn [plain_access] in Hop; try contradiction; cbn [step lru_step].
    + (* get *)
      unfold LRUCache.get.
      destruct (map_get k (cache st)) as [node|] eqn:G.
      * destruct (consistent_listed _ _ _ C G) as [Hin Hkey].
        pose proof (proj1 (Forall_forall _ _) E _ Hin) as En.
        unfold expired_lt. rewrite En. cbn [snd lst with_hits with_lst].
        pose proof (consistent_moveToFront st k node C G) as C'.
        split.
        -- apply (Permutation_Forall (c_same _ C')). cbn [cache with_lst].
           apply (Permutation_Forall (Permutation_sym (c_same _ C))), E.
        -- rewrite (moveToFront_keys st k node C G), Hk.
           destruct (in_dec K_eq_dec k acc) as [_|N]; [reflexivity|].
           exfalso. apply N. rewrite <- Hk, <- Hkey. now apply in_map.
      * cbn [snd lst with_misses]. split; [exact E|]. rewrite Hk.
        destruct (in_dec K_eq_dec k acc) as [I|_]; [|reflexivity].
        exfalso. rewrite <- Hk in I.
        apply (consistent_listed_key st k C) in I. congruence.
    + rewrite has_state. now split.
    + rewrite peek_state. now split.
    + (* set *)
      apply (Hset k v o now now Hop).
    + (* set, two readings *)
      apply (Hset k v o now now' Hop).
Qed.

(** X21.  On a cache with [max = m >= 0] and no [maxSize], used only
    through [set] without TTL, [get], [has] and [peek], the recency list is
    the bounded LRU list: [set] puts its key in front and keeps the [m] most
    recent keys, [get] of a key that is held puts it in front, [has] and
    [peek] move nothing; and [has] finds exactly the keys of that list. *)
Theorem plain_use_follows_lru m (ops : list (@Op K V)) :
  opt_max opts = Some m -> 0 <= m -> opt_maxSize opts = None ->
  Forall (plain_access opts) ops ->
  let st := run ops new in
  let kept := fold_left (lru_step K_eq_dec (Z.to_nat m)) ops [] in
  map key (dl_items (lst st)) = kept /\
  forall k now, fst (has k now st) = true <-> In k kept.
Proof.
  intros Hm Hpos Hs F st kept.
  destruct (run_follows_lru m ops Hs Hm Hpos F) as (C & E & Hk).
  fold st in C, E, Hk. split; [exact Hk|].
  intros k now. unfold kept. rewrite <- Hk. now apply has_without_expiry.
Qed.

Lemma map_set_absent k n (m : list (K * NodeT)) :
  map_get k m = None -> map_set k n m = m ++ [(k, n)].
Proof.
  induction m as [|[k' n'] r IH]; cbn; [reflexivity|].
  destruct (K_eq_dec k k'); [discriminate|]. intros H. now rewrite IH.
Qed.

Lemma set_entry_absent k v o now (st : StateT) :
  map_get k (cache st) = None ->
  set_entry K_eq_dec opts k v o now st
  = mkState
      (cache st ++
       [(k, mkNode (fresh st) k v (item_size opts o v k) (item_expiry opts o now))])
      (addToFront
         (mkNode (fresh st) k v (item_size opts o v k) (item_expiry opts o now))
         (lst st))
      (totalSize st + item_size opts o v k)
      (hits st) (misses st) (disposed st) (S (fresh st)).
Proof.
  intros H. unfold set_entry. rewrite H. cbn.
  unfold with_totalSize, with_cache, with_lst, with_fresh. cbn.
  now rewrite (map_set_absent _ _ _ H).
Qed.

Lemma item_expiry_live_at i k v z o now now' :
  item_ttl opts o <= 0 \/ now' < now + item_ttl opts o ->
  expired_le (mkNode i k v z (item_expiry opts o now) : NodeT) now' = false.
Proof.
  intros H. unfold expired_le, item_expiry. cbn.
  destruct (item_ttl opts o >? 0) eqn:T; [|reflexivity].
  rewrite Z.gtb_ltb in T. apply Z.ltb_lt in T. apply Z.leb_gt. lia.
Qed.

Lemma clear_new : clear new = new.
Proof. unfold LRUCache.clear. now destruct (opt_dispose opts). Qed.

Lemma rebased_tuple now now' (kn : K * NodeT) :
  item_expiry opts (snd (emitted_tuple now kn)) now' = rebased opts now now' (snd kn).
Proof.
  unfold emitted_tuple, rebased, item_expiry, item_ttl. cbn.
  destruct (expiry (snd kn)) as [e|]; [|reflexivity].
  destruct (e - now >? 0) eqn:T; [|reflexivity].
  now rewrite T.
Qed.

Lemma serialize_entry_emitted now (kn : K * NodeT) :
  serialize_entry opts now kn
  = if emitted opts now (snd kn) then Some (emitted_tuple now kn) else None.
Proof.
  unfold serialize_entry, emitted, live, emitted_tuple.
  destruct (expiry (snd kn)) as [e|]; [|reflexivity].
  destruct (e - now >? 0); [reflexivity|].
  now destruct (opt_allowStale opts).
Qed.

Lemma serialize_entries_emitted now (m : list (K * NodeT)) :
  serialize_entries opts now m
  = map (emitted_tuple now) (filter (fun kn => emitted opts now (snd kn)) m).
Proof.
  induction m as [|kn r IH]; [reflexivity|].
  cbn [serialize_entries filter]. rewrite serialize_entry_emitted.
  destruct (emitted opts now (snd kn)); cbn [map]; now rewrite IH.
Qed.

Lemma filter_keys_NoDup (f : K * NodeT -> bool) (m : list (K * NodeT)) :
  NoDup (map fst m) -> NoDup (map fst (filter f m)).
Proof.
  induction m as [|kn r IH]; cbn; [constructor|].
  intros H. inversion H as [|? ? H1 H2]; subst.
  destruct (f kn); [|now apply IH]. cbn. constructor; [|now apply IH].
  intros G. apply H1. apply in_map_iff in G. destruct G as [x [E G]].
  apply filter_In in G. rewrite <- E. now apply in_map.
Qed.

Lemma filter_count_le (A : Type) (f : A -> bool) (l : list A) :
  (List.length (filter f l) <= List.length l)%nat.
Proof.
  induction l as [|a r IH]; cbn; [lia|]. destruct (f a); cbn; lia.
Qed.

Lemma Forall2_In_left (A B : Type) (R : A -> B -> Prop) l l' x :
  Forall2 R l l' -> In x l -> exists y, In y l' /\ R x y.
Proof.
  induction 1 as [|a b r r' Hab Hr IH]; [contradiction|].
  intros [->|H].
  - exists b. split; [now left|assumption].
  - destruct (IH H) as [y [Hy Ry]]. exists y. split; [now right|assumption].
Qed.

Lemma rebased_live now now' (n : NodeT) (kn' : K * NodeT) :
  expiry (snd kn') = rebased opts now now' n -> live now' (snd kn') = true.
Proof.
  unfold live, rebased, item_expiry, item_ttl. cbn [io_ttl noItemOptions].
  intros ->.
  assert (D : match (if opt_ttl opts >? 0 then Some (now' + opt_ttl opts)
                     else None) with
              | Some e => e - now' >? 0
              | None => true
              end = true).
  { destruct (opt_ttl opts >? 0) eqn:T; [|reflexivity].
    rewrite Z.gtb_ltb in *. apply Z.ltb_lt in T. apply Z.ltb_lt. lia. }
  destruct (expiry n) as [e|]; [|exact D].
  destruct (e - now >? 0) eqn:T; [|exact D].
  rewrite Z.gtb_ltb in *. apply Z.ltb_lt in T. apply Z.ltb_lt. lia.
Qed.

(** ** What prune leaves *)

Lemma map_set_Forall (P : K * NodeT -> Prop) k n (m : list (K * NodeT)) :
  P (k, n) -> Forall P m -> Forall P (map_set k n m).
Proof.
  intros Hn. induction 1 as [|[k' n'] r H1 H2 IH]; cbn.
  - now constructor.
  - destruct (K_eq_dec k k'); now constructor.
Qed.

Lemma map_delete_shorter k (m : list (K * NodeT)) :
  (List.length (map_delete k m) <= List.length m)%nat.
Proof.
  induction m as [|[k' n'] r IH]; cbn; [lia|].
  destruct (K_eq_dec k k'); cbn; lia.
Qed.

Lemma within_limits_prune now (st : StateT) :
  consistent st -> within_limits opts (snd (prune now st)).
Proof.
  intros C. pose proof (consistent_prune now st C) as Cr.
  unfold LRUCache.prune in *.
  pose proof (consistent_prune_expired now st C) as C1.
  destruct (prune_expired now st) as [p st1]. cbn [snd] in C1.
  destruct (prune_capacity_exit (capacity_fuel st1) p st1) as [H|H].
  - unfold capacity_fuel. lia.
  - now right.
  - left. now apply consistent_empty.
Qed.

(** * Further properties of the engine *)

(** ** delete *)

Lemma map_get_delete_other k k' (m : list (K * NodeT)) :
  k' <> k -> map_get k' (map_delete k m) = map_get k' m.
Proof.
  intros Hne. induction m as [|[k0 n0] r IH]; cbn; [reflexivity|].
  destruct (K_eq_dec k k0) as [->|N1].
  - destruct (K_eq_dec k' k0); [contradiction|reflexivity].
  - cbn. destruct (K_eq_dec k' k0); [reflexivity|exact IH].
Qed.

Lemma map_delete_length k n (m : list (K * NodeT)) :
  map_get k m = Some n -> S (List.length (map_delete k m)) = List.length m.
Proof.
  intros H. apply map_delete_perm in H. apply Permutation_length in H.
  cbn in H. now symmetry.
Qed.

Lemma map_delete_incl k (m : list (K * NodeT)) : incl (map_delete k m) m.
Proof.
  induction m as [|[k0 n0] r IH]; cbn; [apply incl_refl|].
  destruct (K_eq_dec k k0); [apply incl_tl, incl_refl|].
  intros x [<-|H]; [now left|right; now apply IH].
Qed.

Lemma delete_cache k r (st : StateT) :
  cache (snd (delete k r st)) = map_delete k (cache st).
Proof.
  unfold LRUCache.delete. destruct (map_get k (cache st)) eqn:E.
  - cbn. now dispose_cases.
  - cbn. symmetry. now apply map_delete_absent.
Qed.

Lemma delete_counters k r (st : StateT) :
  hits (snd (delete k r st)) = hits st /\
  misses (snd (delete k r st)) = misses st /\
  fresh (snd (delete k r st)) = fresh st.
Proof.
  unfold LRUCache.delete. destruct (map_get k (cache st)); [|now repeat split].
  cbn. dispose_cases; now repeat split.
Qed.

(** X2.  In every state reached by public operations, [delete] of a key that
    is held returns [true], removes exactly that key (the other keys keep
    their entries and their order in the recency list), lowers [size] by one
    and [totalSize] by the entry's size, leaves [hits] and [misses] alone,
    and invokes the callback at most for that entry, with the reason it was
    given; [delete] of a key that is not held returns [false] and changes
    nothing. *)
Theorem delete_removes_exactly_its_key (ops : list (@Op K V)) k r :
  let st := run ops new in
  let st' := snd (delete k r st) in
  match map_get k (cache st) with
  | Some node =>
      fst (delete k r st) = true /\
      map_get k (cache st') = None /\
      (forall k', k' <> k -> map_get k' (cache st') = map_get k' (cache st)) /\
      map key (dl_items (lst st'))
      = List.remove K_eq_dec k (map key (dl_items (lst st))) /\
      LRUCache.size st' = LRUCache.size st - 1 /\
      totalSize st' = totalSize st - DoublyLinkedList.size node /\
      hits st' = hits st /\ misses st' = misses st /\
      disposed st'
      = disposed st ++
        (if opt_dispose opts
         then [mkCall (value node) k r (opt_asyncDispose opts) true true]
         else [])
  | None => delete k r st = (false, st)
  end.
Proof.
  intros st st'. pose proof (consistent_run ops _ consistent_new) as C.
  fold st in C. destruct (map_get k (cache st)) as [node|] eqn:E.
  - destruct (consistent_listed _ _ _ C E) as [Hin Hk].
    destruct (consistent_attached _ _ _ C E) as [A1 A2].
    destruct (delete_counters k r st) as (H1 & H2 & _). fold st' in H1, H2.
    assert (Hc : cache st' = map_delete k (cache st)) by apply delete_cache.
    split; [unfold LRUCache.delete; now rewrite E|].
    split; [rewrite Hc; apply map_get_delete_same, C|].
    split; [intros k' N; rewrite Hc; now apply map_get_delete_other|].
    split.
    { unfold st', LRUCache.delete. rewrite E. cbn [snd].
      assert (G : map key (unlink node (dl_items (lst st)))
                  = List.remove K_eq_dec k (map key (dl_items (lst st)))).
      { rewrite <- Hk. apply unlink_keys;
          [assumption|apply C|now apply consistent_list_keys]. }
      dispose_cases; exact G. }
    split.
    { unfold LRUCache.size, map_size. rewrite Hc.
      pose proof (map_delete_length _ _ _ E). lia. }
    split.
    { unfold st', LRUCache.delete. rewrite E. cbn [snd].
      now dispose_cases. }
    split; [exact H1|]. split; [exact H2|].
    unfold st', LRUCache.delete. rewrite E. cbn [snd].
    unfold LRUCache.disposeItem. rewrite Hk, A1 in *. rewrite A2.
    destruct (opt_dispose opts); cbn; [reflexivity|now rewrite app_nil_r].
  - unfold LRUCache.delete. now rewrite E.
Qed.

(** ** prune *)

Lemma map_delete_middle (pre r : list (K * NodeT)) k n :
  ~ In k (map fst pre) -> map_delete k (pre ++ (k, n) :: r) = pre ++ r.
Proof.
  induction pre as [|[k0 n0] pre IH]; cbn; intros H.
  - destruct (K_eq_dec k k); congruence.
  - destruct (K_eq_dec k k0) as [->|_]; [exfalso; apply H; now left|].
    f_equal. apply IH. tauto.
Qed.

Lemma prune_expired_loop_cache now (r : list (K * NodeT)) :
  forall (pre : list (K * NodeT)) p (s : StateT),
  cache s = pre ++ r -> NoDup (map fst (pre ++ r)) ->
  cache (snd (fold_left
                (fun (acc : Z * StateT) (kn : K * NodeT) =>
                   if expired_le (snd kn) now
                   then (fst acc + 1, snd (delete (fst kn) EXPIRED (snd acc)))
                   else acc)
                r (p, s)))
  = pre ++ filter (fun kn => negb (expired_le (snd kn) now)) r.
Proof.
  induction r as [|[k n] r IH]; intros pre p s Hc Hnd; cbn [fold_left filter].
  - exact Hc.
  - cbn [snd fst]. destruct (expired_le n now); cbn [negb].
    + apply IH.
      * rewrite delete_cache, Hc. apply map_delete_middle.
        rewrite map_app in Hnd. cbn in Hnd.
        apply NoDup_remove_2 in Hnd. intros H. apply Hnd, in_or_app. now left.
      * rewrite map_app in *. cbn in Hnd. now apply NoDup_remove_1 in Hnd.
    + replace (pre ++ (k, n) :: filter _ r)
        with ((pre ++ [(k, n)]) ++
              filter (fun kn => negb (expired_le (snd kn) now)) r)
        by now rewrite <- app_assoc.
      apply IH; rewrite <- app_assoc; assumption.
Qed.

Lemma prune_expired_cache now (st : StateT) :
  NoDup (map fst (cache st)) ->
  cache (snd (prune_expired now st))
  = filter (fun kn => negb (expired_le (snd kn) now)) (cache st).
Proof.
  intros H. unfold LRUCache.prune_expired.
  now apply (prune_expired_loop_cache now (cache st) [] 0 st).
Qed.

Lemma prune_expired_loop_count now (r : list (K * NodeT)) :
  forall p (s : StateT),
  NoDup (map fst r) ->
  (forall kn, In kn r -> map_get (fst kn) (cache s) <> None) ->
  let res := fold_left
               (fun (acc : Z * StateT) (kn : K * NodeT) =>
                  if expired_le (snd kn) now
                  then (fst acc + 1, snd (delete (fst kn) EXPIRED (snd acc)))
                  else acc)
               r (p, s) in
  fst res - p = LRUCache.size s - LRUCache.size (snd res).
Proof.
  induction r as [|[k n] r IH]; intros p s Hnd Hin; cbn [fold_left].
  - cbn. lia.
  - inversion Hnd as [|? ? Hk Hnd']; subst. cbn [fst snd].
    destruct (expired_le n now).
    + destruct (map_get k (cache s)) as [node|] eqn:E;
        [|exfalso; apply (Hin (k, n)); [now left|exact E]].
      assert (Hs : LRUCache.size (snd (delete k EXPIRED s))
                   = LRUCache.size s - 1).
      { unfold LRUCache.size, map_size. rewrite delete_cache.
        pose proof (map_delete_length _ _ _ E). lia. }
      assert (G := IH (p + 1) (snd (delete k EXPIRED s)) Hnd').
      cbn zeta in G. rewrite Hs in G.
      assert (G' : forall kn, In kn r ->
                     map_get (fst kn) (cache (snd (delete k EXPIRED s))) <> None).
      { intros kn Hkn. rewrite delete_cache, map_get_delete_other.
        - apply Hin. now right.
        - intros Heq. apply Hk. rewrite <- Heq. now apply in_map. }
      specialize (G G'). lia.
    + apply IH; [assumption|]. intros kn Hkn. apply Hin. now right.
Qed.

Lemma evict_tail_cache (st st' : StateT) :
  evict_tail st = Some st' ->
  exists node, last_node (dl_items (lst st)) = Some node /\
               cache st' = map_delete (key node) (cache st).
Proof.
  unfold LRUCache.evict_tail, removeTail, tail.
  destruct (last_node (dl_items (lst st))) as [node|]; [|discriminate].
  intros H. injection H as <-. exists node. split; [reflexivity|].
  now dispose_cases.
Qed.

Lemma prune_capacity_count fuel p (st : StateT) :
  consistent st ->
  fst (prune_capacity fuel p st) - p
  = LRUCache.size st - LRUCache.size (snd (prune_capacity fuel p st)).
Proof.
  revert p st. induction fuel as [|f IH]; intros p st C; cbn [prune_capacity].
  - cbn. lia.
  - destruct (over_capacity opts st); [|cbn; lia].
    destruct (evict_tail st) as [st'|] eqn:E; [|cbn; lia].
    pose proof (consistent_evict_tail _ _ C E) as C'.
    specialize (IH (p + 1) st' C').
    destruct (evict_tail_cache _ _ E) as [node [L Hc]].
    pose proof (consistent_indexed _ _ C (last_node_In _ _ L)) as G.
    pose proof (map_delete_length _ _ _ G) as Hl.
    unfold LRUCache.size, map_size in *. rewrite Hc in IH. lia.
Qed.

Lemma prune_capacity_incl fuel p (st : StateT) :
  incl (cache (snd (prune_capacity fuel p st))) (cache st).
Proof.
  revert p st. induction fuel as [|f IH]; intros p st; cbn [prune_capacity];
    [apply incl_refl|].
  destruct (over_capacity opts st); [|apply incl_refl].
  destruct (evict_tail st) as [st'|] eqn:E; [|apply incl_refl].
  destruct (evict_tail_cache _ _ E) as [node [_ Hc]].
  eapply incl_tran; [apply IH|]. rewrite Hc. apply map_delete_incl.
Qed.

Lemma prune_capacity_counters fuel p (st : StateT) :
  hits (snd (prune_capacity fuel p st)) = hits st /\
  misses (snd (prune_capacity fuel p st)) = misses st /\
  fresh (snd (prune_capacity fuel p st)) = fresh st.
Proof.
  revert p st. induction fuel as [|f IH]; intros p st; cbn [prune_capacity];
    [now repeat split|].
  destruct (over_capacity opts st); [|now repeat split].
  destruct (evict_tail st) as [st'|] eqn:E; [|now repeat split].
  destruct (IH (p + 1) st') as (H1 & H2 & H3). rewrite H1, H2, H3.
  unfold LRUCache.evict_tail in E.
  destruct (removeTail (lst st)) as [[node|] l']; [|discriminate].
  injection E as <-. dispose_cases; now repeat split.
Qed.

Lemma prune_expired_loop_counters now (r : list (K * NodeT)) :
  forall acc : Z * StateT,
  let res := fold_left
               (fun (acc : Z * StateT) (kn : K * NodeT) =>
                  if expired_le (snd kn) now
                  then (fst acc + 1, snd (delete (fst kn) EXPIRED (snd acc)))
                  else acc)
               r acc in
  hits (snd res) = hits (snd acc) /\
  misses (snd res) = misses (snd acc) /\
  fresh (snd res) = fresh (snd acc).
Proof.
  induction r as [|kn r IH]; intros acc; cbn [fold_left]; [now repeat split|].
  destruct (expired_le (snd kn) now); [|apply IH].
  destruct (IH (fst acc + 1, snd (delete (fst kn) EXPIRED (snd acc))))
    as (H1 & H2 & H3).
  destruct (delete_counters (fst kn) EXPIRED (snd acc)) as (D1 & D2 & D3).
  cbn [snd] in *. cbn zeta. rewrite H1, H2, H3. now repeat split.
Qed.

Lemma prune_expired_counters now (st : StateT) :
  hits (snd (prune_expired now st)) = hits st /\
  misses (snd (prune_expired now st)) = misses st /\
  fresh (snd (prune_expired now st)) = fresh st.
Proof. apply (prune_expired_loop_counters now (cache st) (0, st)). Qed.

Lemma prune_counters now (st : StateT) :
  hits (snd (prune now st)) = hits st /\
  misses (snd (prune now st)) = misses st /\
  fresh (snd (prune now st)) = fresh st.
Proof.
  unfold LRUCache.prune.
  destruct (prune_expired_counters now st) as (H1 & H2 & H3).
  destruct (prune_expired now st) as [p st1]. cbn [snd] in *.
  destruct (prune_capacity_counters (capacity_fuel st1) p st1) as (G1 & G2 & G3).
  rewrite G1, G2, G3. now repeat split.
Qed.

(** X3.  In every state reached by public operations, the number [prune]
    returns is the number of entries it removed: the [size] before minus the
    [size] after. *)
Theorem prune_returns_removed_count (ops : list (@Op K V)) now :
  let st := run ops new in
  fst (prune now st) = LRUCache.size st - LRUCache.size (snd (prune now st)).
Proof.
  intros st. pose proof (consistent_run ops _ consistent_new) as C.
  fold st in C. unfold LRUCache.prune.
  pose proof (prune_expired_loop_count now (cache st) 0 st (c_keys _ C)) as H1.
  cbn zeta in H1. fold (prune_expired now st) in H1.
  pose proof (consistent_prune_expired now st C) as C1.
  destruct (prune_expired now st) as [p st1]. cbn [fst snd] in *.
  pose proof (prune_capacity_count (capacity_fuel st1) p st1 C1) as H2.
  assert (G : p - 0 = LRUCache.size st - LRUCache.size st1).
  { apply H1. intros [k n] Hkn. cbn [fst].
    rewrite (In_map_get k n _ (c_keys _ C) Hkn). discriminate. }
  lia.
Qed.

Lemma prune_result now (st : StateT) :
  consistent st ->
  Forall (fun kn => expired_le (snd kn) now = false)
         (cache (snd (prune now st))) /\
  incl (cache (snd (prune now st))) (cache st).
Proof.
  intros C.
  assert (I : incl (cache (snd (prune now st)))
                   (filter (fun kn => negb (expired_le (snd kn) now))
                           (cache st))).
  { unfold LRUCache.prune.
    rewrite <- (prune_expired_cache now st (c_keys _ C)).
    destruct (prune_expired now st) as [p st1]. apply prune_capacity_incl. }
  split.
  - apply Forall_forall. intros kn Hkn. apply I, filter_In in Hkn.
    destruct Hkn as [_ Hkn]. now apply negb_true_iff in Hkn.
  - intros kn Hkn. apply I, filter_In in Hkn. tauto.
Qed.

(** X4.  In every state reached by public operations, after [prune] at
    [now] no entry with [expiry <= now] is left, every entry left was there
    before (unchanged), the cache is empty or within both of its bounds, and
    [hits] and [misses] are as before. *)
Theorem prune_leaves_live_entries_within_limits (ops : list (@Op K V)) now :
  let st := run ops new in
  let st' := snd (prune now st) in
  Forall (fun kn => expired_le (snd kn) now = false) (cache st') /\
  incl (cache st') (cache st) /\
  (cache st' = [] \/ over_capacity opts st' = false) /\
  hits st' = hits st /\ misses st' = misses st.
Proof.
  intros st st'. pose proof (consistent_run ops _ consistent_new) as C.
  fold st in C.
  destruct (prune_counters now st) as (H1 & H2 & _).
  destruct (prune_result now st C) as [F I].
  split; [exact F|]. split; [exact I|].
  split; [now apply within_limits_prune|]. now split.
Qed.

(** X5.  In every state reached by public operations, a second [prune] at
    the same instant removes nothing: it returns 0 and the state the first
    one returned. *)
Theorem prune_twice_is_prune_once (ops : list (@Op K V)) now :
  let st' := snd (prune now (run ops new)) in
  prune now st' = (0, st').
Proof.
  intros st'.
  pose proof (consistent_run ops _ consistent_new) as C0.
  destruct (prune_result now _ C0) as [F _].
  pose proof (within_limits_prune now _ C0) as L.
  pose proof (consistent_prune now _ C0) as C.
  fold st' in F, L, C.
  unfold LRUCache.prune. rewrite (prune_expired_none now st' F).
  unfold capacity_fuel. cbn [prune_capacity].
  destruct (over_capacity opts st') eqn:O; [|reflexivity].
  destruct L as [L|L]; [|congruence].
  unfold LRUCache.evict_tail, removeTail, tail.
  pose proof (c_same _ C) as P. rewrite L in P. cbn in P.
  apply Permutation_nil in P. now rewrite P.
Qed.

(** ** set: admission and lifetime of the new entry *)


Lemma nid_injective (st : StateT) (a b : NodeT) :
  consistent st -> In a (dl_items (lst st)) -> In b (dl_items (lst st)) ->
  nid a = nid b -> a = b.
Proof.
  intros C. pose proof (c_ids _ C) as N.
  induction (dl_items (lst st)) as [|x r IH]; [contradiction|].
  cbn in N. inversion N as [|? ? Hx Hr]; subst.
  intros [->|Ha] [->|Hb] E; try reflexivity.
  - exfalso. apply Hx. rewrite E. now apply in_map.
  - exfalso. apply Hx. rewrite <- E. now apply in_map.
  - now apply IH.
Qed.

Lemma remove_keeps_head (st : StateT) (h n : NodeT) :
  consistent st -> hd_error (dl_items (lst st)) = Some h ->
  In n (dl_items (lst st)) -> n <> h ->
  hd_error (dl_items (remove n (lst st))) = Some h.
Proof.
  intros C Hh Hn Hne. cbn [remove dl_items].
  destruct (dl_items (lst st)) as [|x r] eqn:E; [discriminate|].
  cbn in Hh. injection Hh as ->. cbn [unlink].
  destruct (Nat.eqb (nid h) (nid n)) eqn:Q; [|reflexivity].
  apply Nat.eqb_eq in Q. exfalso. apply Hne. symmetry.
  apply (nid_injective st); rewrite ?E; try assumption. now left.
Qed.

Lemma prune_expired_loop_head now (node : NodeT) (r : list (K * NodeT)) :
  expired_le node now = false ->
  forall (pre : list (K * NodeT)) p (s : StateT),
  consistent s -> cache s = pre ++ r ->
  hd_error (dl_items (lst s)) = Some node ->
  hd_error
    (dl_items
       (lst (snd (fold_left
                    (fun (acc : Z * StateT) (kn : K * NodeT) =>
                       if expired_le (snd kn) now
                       then (fst acc + 1,
                             snd (delete (fst kn) EXPIRED (snd acc)))
                       else acc)
                    r (p, s)))))
  = Some node.
Proof.
  intros Hlive. induction r as [|[k n] r IH]; intros pre p s C Hc Hh;
    cbn [fold_left]; [exact Hh|].
  cbn [fst snd]. destruct (expired_le n now) eqn:X.
  - assert (Hget : map_get k (cache s) = Some n).
    { apply In_map_get; [apply C|]. rewrite Hc. apply in_or_app.
      right. now left. }
    apply (IH pre).
    + now apply consistent_delete.
    + rewrite delete_cache, Hc. apply map_delete_middle.
      pose proof (c_keys _ C) as N. rewrite Hc, map_app in N. cbn in N.
      apply NoDup_remove_2 in N. intros H. apply N, in_or_app. now left.
    + unfold LRUCache.delete. rewrite Hget. cbn [snd lst with_totalSize with_lst].
      destruct (consistent_listed _ _ _ C Hget) as [Hin _].
      assert (G : hd_error (dl_items (remove n (lst s))) = Some node).
      { apply (remove_keeps_head s); try assumption. intros ->. congruence. }
      dispose_cases; exact G.
  - apply (IH (pre ++ [(k, n)])); [assumption| |assumption].
    now rewrite <- app_assoc.
Qed.

Lemma prune_capacity_head fuel p (st : StateT) (node : NodeT) :
  (forall m, opt_max opts = Some m -> 1 <= m) ->
  (forall ms, opt_maxSize opts = Some ms -> DoublyLinkedList.size node <= ms) ->
  consistent st -> hd_error (dl_items (lst st)) = Some node ->
  hd_error (dl_items (lst (snd (prune_capacity fuel p st)))) = Some node.
Proof.
  intros Hm Hs. revert p st.
  induction fuel as [|f IH]; intros p st C Hh; cbn [prune_capacity];
    [exact Hh|].
  destruct (over_capacity opts st) eqn:O; [|exact Hh].
  destruct (evict_tail st) as [st'|] eqn:E; [|exact Hh].
  apply IH; [now apply (consistent_evict_tail st)|].
  destruct (evict_tail_items _ _ E) as [t [L I]]. rewrite I.
  destruct (dl_items (lst st)) as [|x r] eqn:Q; [discriminate|].
  cbn in Hh. injection Hh as ->.
  destruct r as [|b r'].
  - exfalso. unfold over_capacity in O.
    rewrite (consistent_size _ C), (c_total _ C) in O.
    rewrite (sum_sizes_perm _ _ (c_same _ C)), Q in O. cbn in O.
    apply orb_true_iff in O. destruct O as [O|O].
    + destruct (opt_max opts) as [m|]; [|discriminate].
      specialize (Hm m eq_refl). rewrite Z.gtb_ltb in O.
      apply Z.ltb_lt in O. lia.
    + destruct (opt_maxSize opts) as [ms|]; [|discriminate].
      specialize (Hs ms eq_refl). rewrite Z.gtb_ltb in O.
      apply Z.ltb_lt in O. lia.
  - change (last_node (node :: b :: r')) with (last_node (b :: r')) in L.
    cbn [unlink]. destruct (Nat.eqb (nid node) (nid t)) eqn:N; [|reflexivity].
    apply Nat.eqb_eq in N. exfalso.
    pose proof (c_ids _ C) as D. rewrite Q in D. cbn in D.
    inversion D as [|? ? Hx _]; subst. apply Hx. rewrite N.
    apply (in_map nid (b :: r')), last_node_In, L.
Qed.

(** X1.  In every state reached by public operations of a cache without
    [maxSize] whose [max] (if finite) is at least 1, [set] admits its item
    whenever its closing [prune] reads the clock before the expiry of the
    new entry ([now] is the reading the expiry is counted from, [now'] the
    reading of the [prune]): on return the new entry is the head of the
    recency list and is the entry the index holds for the key.  [peek] and
    [has] then find it up to and including the instant of its expiry
    (always, when it has none), and with [allowStale] off they no longer
    find it at any later instant. *)
Theorem set_admits_item_that_fits (ops : list (@Op K V)) k v o now now' :
  (forall m, opt_max opts = Some m -> 1 <= m) ->
  opt_maxSize opts = None ->
  item_ttl opts o <= 0 \/ now' < now + item_ttl opts o ->
  let st := run ops new in
  let st' := set_at k v o now now' st in
  let node := mkNode (fresh st) k v (item_size opts o v k)
                     (item_expiry opts o now) in
  head (lst st') = Some node /\
  map_get k (cache st') = Some node /\
  (forall t,
      item_ttl opts o <= 0 \/ t <= now + item_ttl opts o ->
      fst (peek k t st') = Some v /\ fst (has k t st') = true) /\
  (forall t,
      0 < item_ttl opts o -> now + item_ttl opts o < t ->
      opt_allowStale opts = false ->
      fst (peek k t st') = None /\ fst (has k t st') = false).
Proof.
  intros Hm Hs Hclock st st' node.
  pose proof (consistent_run ops _ consistent_new) as C. fold st in C.
  set (s5 := set_entry K_eq_dec opts k v o now st).
  pose proof (consistent_set_entry k v o now st C) as C5. fold s5 in C5.
  assert (H5 : hd_error (dl_items (lst s5)) = Some node).
  { unfold s5. now rewrite set_entry_items. }
  assert (Hlive : expired_le node now' = false)
    by now apply item_expiry_live_at.
  assert (Hh : head (lst st') = Some node).
  { unfold st', LRUCache.set_at, LRUCache.prune. fold s5.
    pose proof (prune_expired_loop_head now' node (cache s5) Hlive [] 0 s5
                  C5 eq_refl H5) as H1.
    fold (prune_expired now' s5) in H1.
    pose proof (consistent_prune_expired now' s5 C5) as C1.
    destruct (prune_expired now' s5) as [p s1]. cbn [snd] in *.
    apply prune_capacity_head; try assumption.
    intros ms H. rewrite Hs in H. discriminate H. }
  assert (C' : consistent st') by now apply consistent_set_at.
  assert (Hg : map_get k (cache st') = Some node).
  { change k with (key node). apply consistent_indexed; [assumption|].
    unfold head in Hh. destruct (dl_items (lst st')); [discriminate|].
    cbn in Hh. injection Hh as ->. now left. }
  split; [exact Hh|]. split; [exact Hg|].
  unfold LRUCache.peek, LRUCache.has. rewrite Hg.
  unfold expired_lt, node, item_expiry. cbn [expiry value].
  split; intros t.
  - intros Hv. destruct (item_ttl opts o >? 0) eqn:T; [|now split].
    rewrite Z.gtb_ltb in T. apply Z.ltb_lt in T.
    replace (now + item_ttl opts o <? t) with false
      by (symmetry; apply Z.ltb_ge; lia).
    now split.
  - intros Hpos Hlate Hstale.
    replace (item_ttl opts o >? 0) with true
      by (symmetry; rewrite Z.gtb_ltb; now apply Z.ltb_lt).
    replace (now + item_ttl opts o <? t) with true
      by (symmetry; now apply Z.ltb_lt).
    rewrite Hstale. now split.
Qed.

(** ** get *)

Lemma moveToFront_head (st : StateT) k node :
  consistent st -> map_get k (cache st) = Some node ->
  head (moveToFront node (lst st)) = Some node.
Proof.
  intros C Hget. destruct (consistent_listed _ _ _ C Hget) as [Hin _].
  unfold moveToFront. destruct (head (lst st)) as [h|] eqn:E; [|reflexivity].
  destruct (Nat.eqb (nid h) (nid node)) eqn:N; [|reflexivity].
  apply Nat.eqb_eq in N. rewrite E. f_equal.
  apply (nid_injective st); try assumption.
  unfold head in E. destruct (dl_items (lst st)); [discriminate|].
  cbn in E. injection E as ->. now left.
Qed.

(** X6.  In every state reached by public operations, [get] of a key whose
    entry is not expired ([expiry] absent or [>= now]) returns the entry's
    value, adds one to [hits], and makes the entry the head of the recency
    list while the other keys keep their relative order; the index,
    [totalSize], [misses] and the dispose trace are unchanged. *)
Theorem get_hit_moves_entry_to_front (ops : list (@Op K V)) k node now :
  let st := run ops new in
  map_get k (cache st) = Some node -> expired_lt node now = false ->
  let st' := snd (get k now st) in
  fst (get k now st) = Some (value node) /\
  head (lst st') = Some node /\
  map key (dl_items (lst st'))
  = k :: List.remove K_eq_dec k (map key (dl_items (lst st))) /\
  cache st' = cache st /\ totalSize st' = totalSize st /\
  hits st' = hits st + 1 /\ misses st' = misses st /\
  disposed st' = disposed st.
Proof.
  intros st Hget Hlive st'.
  pose proof (consistent_run ops _ consistent_new) as C. fold st in C.
  unfold st', LRUCache.get. rewrite Hget, Hlive. cbn [fst snd].
  split; [reflexivity|].
  split; [now apply (moveToFront_head st k)|].
  split; [now apply moveToFront_keys|]. now repeat split.
Qed.

Lemma delete_present (st : StateT) k r node :
  consistent st -> map_get k (cache st) = Some node ->
  fst (delete k r st) = true /\
  totalSize (snd (delete k r st)) = totalSize st - DoublyLinkedList.size node /\
  disposed (snd (delete k r st))
  = disposed st ++
    (if opt_dispose opts
     then [mkCall (value node) k r (opt_asyncDispose opts) true true]
     else []).
Proof.
  intros C E. destruct (consistent_listed _ _ _ C E) as [_ Hk].
  destruct (consistent_attached _ _ _ C E) as [A1 A2].
  unfold LRUCache.delete. rewrite E. cbn [fst snd].
  split; [reflexivity|]. split; [now dispose_cases|].
  unfold LRUCache.disposeItem. rewrite Hk in *. rewrite A1, A2.
  destruct (opt_dispose opts); cbn; [reflexivity|now rewrite app_nil_r].
Qed.

(** X7.  In every state reached by public operations, with [allowStale]
    off, [get] of a key whose entry is past its expiry ([expiry < now])
    returns nothing, adds one to [misses], and removes the entry: the key is
    no longer in the index, [size] drops by one, [totalSize] by the entry's
    size, and the callback, if configured, is invoked once with reason
    EXPIRED. *)
Theorem get_expired_removes_entry (ops : list (@Op K V)) k node now :
  let st := run ops new in
  map_get k (cache st) = Some node -> expired_lt node now = true ->
  opt_allowStale opts = false ->
  let st' := snd (get k now st) in
  fst (get k now st) = None /\
  map_get k (cache st') = None /\
  LRUCache.size st' = LRUCache.size st - 1 /\
  totalSize st' = totalSize st - DoublyLinkedList.size node /\
  hits st' = hits st /\ misses st' = misses st + 1 /\
  disposed st'
  = disposed st ++
    (if opt_dispose opts
     then [mkCall (value node) k EXPIRED (opt_asyncDispose opts) true true]
     else []).
Proof.
  intros st Hget Hexp Hstale st'.
  pose proof (consistent_run ops _ consistent_new) as C. fold st in C.
  destruct (delete_present st k EXPIRED node C Hget) as (_ & T & D).
  destruct (delete_counters k EXPIRED st) as (H1 & H2 & _).
  pose proof (delete_cache k EXPIRED st) as Hc.
  unfold st', LRUCache.get. rewrite Hget, Hexp, Hstale. cbn [fst snd].
  cbn [cache totalSize hits misses disposed with_misses].
  split; [reflexivity|].
  split; [rewrite Hc; apply map_get_delete_same, C|].
  split.
  { unfold LRUCache.size, map_size. cbn [cache with_misses]. rewrite Hc.
    pose proof (map_delete_length _ _ _ Hget). lia. }
  split; [exact T|]. split; [exact H1|]. split; [now rewrite H2|exact D].
Qed.

(** ** Hit and miss counters *)

Lemma set_counters k v o now (st : StateT) :
  hits (set k v o now st) = hits st /\ misses (set k v o now st) = misses st.
Proof.
  unfold LRUCache.set.
  destruct (prune_counters now (set_entry K_eq_dec opts k v o now st))
    as (H1 & H2 & _).
  rewrite H1, H2. unfold set_entry.
  destruct (map_get k (cache st)); [|now split].
  destruct (negb (opt_noDisposeOnSet opts)); [|now split].
  dispose_cases; now split.
Qed.

Lemma set_at_counters k v o now now' (st : StateT) :
  hits (set_at k v o now now' st) = hits st /\
  misses (set_at k v o now now' st) = misses st.
Proof.
  unfold LRUCache.set_at.
  destruct (prune_counters now' (set_entry K_eq_dec opts k v o now st))
    as (H1 & H2 & _).
  rewrite H1, H2. unfold set_entry.
  destruct (map_get k (cache st)); [|now split].
  destruct (negb (opt_noDisposeOnSet opts)); [|now split].
  dispose_cases; now split.
Qed.

Lemma clear_counters (st : StateT) :
  hits (clear st) = hits st /\ misses (clear st) = misses st.
Proof.
  unfold LRUCache.clear. cbn [hits misses with_totalSize with_lst with_cache].
  destruct (opt_dispose opts); [|now split].
  generalize (cache st) as m.
  intros m. revert st. induction m as [|kn r IH]; intros st; [now split|].
  cbn [fold_left]. destruct (IH (disposeItem (fst kn) (value (snd kn))
                                             CACHE_CLEAR st)) as [H1 H2].
  rewrite H1, H2. dispose_cases; now split.
Qed.

Lemma deserialize_counters data now (st : StateT) :
  hits (deserialize data now st) = hits st /\
  misses (deserialize data now st) = misses st.
Proof.
  unfold LRUCache.deserialize.
  destruct (clear_counters st) as [<- <-]. generalize (clear st) as s.
  induction data as [|e r IH]; intros s; [now split|].
  cbn [fold_left]. destruct (IH (set (fst (fst e)) (snd (fst e)) (snd e) now s))
    as [H1 H2].
  destruct (set_counters (fst (fst e)) (snd (fst e)) (snd e) now s) as [G1 G2].
  rewrite H1, H2. now split.
Qed.

Lemma deserialize_at_counters data (st : StateT) :
  hits (deserialize_at data st) = hits st /\
  misses (deserialize_at data st) = misses st.
Proof.
  unfold LRUCache.deserialize_at.
  destruct (clear_counters st) as [<- <-]. generalize (clear st) as s.
  induction data as [|e r IH]; intros s; [now split|].
  cbn [fold_left]. destruct (IH (set_timed e s)) as [H1 H2].
  unfold LRUCache.set_timed in *.
  destruct (set_at_counters (fst (fst (fst e))) (snd (fst (fst e)))
              (snd (fst e)) (fst (snd e)) (snd (snd e)) s) as [G1 G2].
  rewrite H1, H2. now split.
Qed.

Lemma step_counters op (st : StateT) :
  hits (step op st) + misses (step op st)
  = hits st + misses st + (if is_get op then 1 else 0).
Proof.
  destruct op as [k now|k now|k now|k v o now|k r| |now|now|data now
                 |k v o now now'|data];
    cbn [step is_get].
  - unfold LRUCache.get. destruct (map_get k (cache st)) as [node|];
      [|cbn; lia].
    destruct (expired_lt node now); [|cbn; lia].
    destruct (opt_allowStale opts); [cbn; lia|].
    destruct (delete_counters k EXPIRED st) as (H1 & H2 & _).
    cbn [snd hits misses with_misses]. lia.
  - rewrite has_state. lia.
  - rewrite peek_state. lia.
  - destruct (set_counters k v o now st) as [-> ->]. lia.
  - destruct (delete_counters k r st) as (-> & -> & _). lia.
  - destruct (clear_counters st) as [-> ->]. lia.
  - destruct (prune_counters now st) as (-> & -> & _). lia.
  - cbn. lia.
  - destruct (deserialize_counters data now st) as [-> ->]. lia.
  - destruct (set_at_counters k v o now now' st) as [-> ->]. lia.
  - destruct (deserialize_at_counters data st) as [-> ->]. lia.
Qed.

(** X8.  After any sequence of public operations on a new cache, [hits]
    plus [misses] is the number of [get] calls made, and both counters are
    non-negative: every [get] counts once, as a hit or as a miss, and no
    other operation ([has], [peek], [set], [delete], [clear], [prune],
    [serialize], [deserialize]) counts or resets anything. *)
Theorem hits_and_misses_count_gets (ops : list (@Op K V)) :
  let st := run ops new in
  hits st + misses st = count_gets ops /\ 0 <= hits st /\ 0 <= misses st.
Proof.
  induction ops as [|op ops IH] using rev_ind; [cbn; lia|].
  rewrite run_snoc. cbn zeta in *. destruct IH as (S1 & S2 & S3).
  pose proof (step_counters op (run ops new)) as G.
  unfold count_gets in *. rewrite filter_app, length_app. cbn [filter].
  set (st := run ops new) in *.
  assert (M : hits st <= hits (step op st) /\ misses st <= misses (step op st)).
  { destruct op as [k now|k now|k now|k v o now|k r| |now|now|data now
                   |k v o now now'|data];
      cbn [step].
    - unfold LRUCache.get. destruct (map_get k (cache st)) as [node|];
        [|cbn; lia].
      destruct (expired_lt node now); [|cbn; lia].
      destruct (opt_allowStale opts); [cbn; lia|].
      destruct (delete_counters k EXPIRED st) as (H1 & H2 & _).
      cbn [snd hits misses with_misses]. lia.
    - rewrite has_state. lia.
    - rewrite peek_state. lia.
    - destruct (set_counters k v o now st) as [-> ->]. lia.
    - destruct (delete_counters k r st) as (-> & -> & _). lia.
    - destruct (clear_counters st) as [-> ->]. lia.
    - destruct (prune_counters now st) as (-> & -> & _). lia.
    - cbn. lia.
    - destruct (deserialize_counters data now st) as [-> ->]. lia.
    - destruct (set_at_counters k v o now now' st) as [-> ->]. lia.
    - destruct (deserialize_at_counters data st) as [-> ->]. lia. }
  destruct (is_get op); cbn [List.length] in *; lia.
Qed.

(** ** clear *)

Lemma clear_loop_trace (st : StateT) (m : list (K * NodeT)) :
  consistent st -> incl m (cache st) -> opt_dispose opts = true ->
  forall s : StateT, cache s = cache st -> lst s = lst st ->
  fold_left
    (fun (s : StateT) (kn : K * NodeT) =>
       disposeItem (fst kn) (value (snd kn)) CACHE_CLEAR s) m s
  = with_disposed (disposed s ++ clear_calls opts m) s.
Proof.
  intros C. induction m as [|[k n] r IH]; intros Hin Hd s Hc Hl;
    cbn [fold_left clear_calls map].
  - rewrite app_nil_r. now destruct s.
  - assert (Hkn : In (k, n) (cache st)) by (apply Hin; now left).
    pose proof (In_map_get _ _ _ (c_keys _ C) Hkn) as Hget.
    destruct (consistent_attached _ _ _ C Hget) as [A1 A2].
    destruct (consistent_listed _ _ _ C Hget) as [_ Hk].
    rewrite IH.
    + unfold LRUCache.disposeItem. rewrite Hd. cbn [negb fst snd].
      rewrite Hc, Hl. rewrite Hk in A1, A2. rewrite A1, A2.
      unfold with_disposed. cbn. now rewrite <- app_assoc.
    + intros x Hx. apply Hin. now right.
    + assumption.
    + unfold LRUCache.disposeItem. rewrite Hd. exact Hc.
    + unfold LRUCache.disposeItem. rewrite Hd. exact Hl.
Qed.

Lemma clear_empties_cache (st : StateT) :
  consistent st -> opt_dispose opts = true ->
  clear st
  = mkState [] DoublyLinkedList.empty 0 (hits st) (misses st)
      (disposed st ++ clear_calls opts (cache st)) (fresh st).
Proof.
  intros C D. unfold LRUCache.clear. rewrite D.
  rewrite (clear_loop_trace st (cache st) C (incl_refl _) D st eq_refl eq_refl).
  reflexivity.
Qed.

(** X11.  In every state reached by public operations, [clear] leaves an
    empty index, an empty list of length 0 and [totalSize] 0, keeps [hits]
    and [misses], and, when a callback is configured, invokes it exactly
    once per entry held, in the order of the index, with reason
    CACHE_CLEAR, each entry still being in the index and the list at that
    moment; without a callback it invokes nothing. *)
Theorem clear_empties_and_disposes_each_entry (ops : list (@Op K V)) :
  let st := run ops new in
  clear st
  = mkState [] DoublyLinkedList.empty 0 (hits st) (misses st)
      (disposed st ++
       (if opt_dispose opts then clear_calls opts (cache st) else []))
      (fresh st).
Proof.
  intros st. pose proof (consistent_run ops _ consistent_new) as C.
  fold st in C. unfold LRUCache.clear.
  destruct (opt_dispose opts) eqn:D.
  - rewrite (clear_loop_trace st (cache st) C (incl_refl _) D st eq_refl eq_refl).
    reflexivity.
  - rewrite app_nil_r. reflexivity.
Qed.

(** ** Entries created, held and disposed *)

Lemma map_set_length k n (m : list (K * NodeT)) :
  List.length (map_set k n m)
  = match map_get k m with
    | Some _ => List.length m
    | None => S (List.length m)
    end.
Proof.
  induction m as [|[k0 n0] r IH]; cbn; [reflexivity|].
  destruct (K_eq_dec k k0); cbn; [reflexivity|].
  rewrite IH. now destruct (map_get k r).
Qed.

Lemma accounted_delete k r (st : StateT) :
  opt_dispose opts = true ->
  fresh st = (List.length (cache st) + List.length (disposed st))%nat ->
  fresh (snd (delete k r st))
  = (List.length (cache (snd (delete k r st)))
     + List.length (disposed (snd (delete k r st))))%nat.
Proof.
  intros D A. unfold LRUCache.delete.
  destruct (map_get k (cache st)) as [node|] eqn:E; [|exact A].
  cbn [snd]. unfold LRUCache.disposeItem. rewrite D. cbn.
  rewrite length_app. cbn. pose proof (map_delete_length _ _ _ E). lia.
Qed.

Lemma accounted_prune_capacity fuel p (st : StateT) :
  opt_dispose opts = true -> consistent st ->
  fresh st = (List.length (cache st) + List.length (disposed st))%nat ->
  fresh (snd (prune_capacity fuel p st))
  = (List.length (cache (snd (prune_capacity fuel p st)))
     + List.length (disposed (snd (prune_capacity fuel p st))))%nat.
Proof.
  intros D. revert p st.
  induction fuel as [|f IH]; intros p st C A; cbn [prune_capacity];
    [exact A|].
  destruct (over_capacity opts st); [|exact A].
  destruct (evict_tail st) as [st'|] eqn:E; [|exact A].
  apply IH; [now apply (consistent_evict_tail st)|].
  unfold LRUCache.evict_tail, removeTail, tail in E.
  destruct (last_node (dl_items (lst st))) as [node|] eqn:L; [|discriminate].
  injection E as <-.
  pose proof (consistent_indexed _ _ C (last_node_In _ _ L)) as G.
  pose proof (map_delete_length _ _ _ G) as Hl.
  unfold LRUCache.disposeItem. rewrite D. cbn. rewrite length_app. cbn. lia.
Qed.

Lemma accounted_prune_expired now (r : list (K * NodeT)) :
  opt_dispose opts = true ->
  forall acc : Z * StateT,
  fresh (snd acc)
  = (List.length (cache (snd acc)) + List.length (disposed (snd acc)))%nat ->
  let res := fold_left
               (fun (acc : Z * StateT) (kn : K * NodeT) =>
                  if expired_le (snd kn) now
                  then (fst acc + 1, snd (delete (fst kn) EXPIRED (snd acc)))
                  else acc)
               r acc in
  fresh (snd res)
  = (List.length (cache (snd res)) + List.length (disposed (snd res)))%nat.
Proof.
  intros D. induction r as [|kn r IH]; intros acc A; [exact A|].
  cbn [fold_left]. apply IH.
  destruct (expired_le (snd kn) now); [|exact A].
  cbn [snd]. now apply accounted_delete.
Qed.

Lemma accounted_prune now (st : StateT) :
  opt_dispose opts = true -> consistent st ->
  fresh st = (List.length (cache st) + List.length (disposed st))%nat ->
  fresh (snd (prune now st))
  = (List.length (cache (snd (prune now st)))
     + List.length (disposed (snd (prune now st))))%nat.
Proof.
  intros D C A. unfold LRUCache.prune.
  pose proof (accounted_prune_expired now (cache st) D (0, st) A) as A1.
  cbn zeta in A1. fold (prune_expired now st) in A1.
  pose proof (consistent_prune_expired now st C) as C1.
  destruct (prune_expired now st) as [p st1]. cbn [snd] in *.
  now apply accounted_prune_capacity.
Qed.

Lemma accounted_set_at k v o now now' (st : StateT) :
  opt_dispose opts = true -> opt_noDisposeOnSet opts = false ->
  consistent st ->
  fresh st = (List.length (cache st) + List.length (disposed st))%nat ->
  fresh (set_at k v o now now' st)
  = (List.length (cache (set_at k v o now now' st))
     + List.length (disposed (set_at k v o now now' st)))%nat.
Proof.
  intros D N C A. unfold LRUCache.set_at.
  apply accounted_prune; [assumption|now apply consistent_set_entry|].
  unfold set_entry. destruct (map_get k (cache st)) as [ex|] eqn:E.
  - rewrite N. cbn [negb]. unfold LRUCache.disposeItem. rewrite D. cbn.
    rewrite length_app, map_set_length, E. cbn. lia.
  - cbn. rewrite map_set_length, E. lia.
Qed.

Lemma accounted_set k v o now (st : StateT) :
  opt_dispose opts = true -> opt_noDisposeOnSet opts = false ->
  consistent st ->
  fresh st = (List.length (cache st) + List.length (disposed st))%nat ->
  fresh (set k v o now st)
  = (List.length (cache (set k v o now st))
     + List.length (disposed (set k v o now st)))%nat.
Proof.
  intros D N C A. unfold LRUCache.set.
  apply accounted_prune; [assumption|now apply consistent_set_entry|].
  unfold set_entry. destruct (map_get k (cache st)) as [ex|] eqn:E.
  - rewrite N. cbn [negb]. unfold LRUCache.disposeItem. rewrite D. cbn.
    rewrite length_app, map_set_length, E. cbn. lia.
  - cbn. rewrite map_set_length, E. lia.
Qed.

(** X9.  With a callback configured and [noDisposeOnSet] off, after any
    sequence of public operations on a new cache the number of entries
    [set] has created (directly or through [deserialize]) equals the number
    of entries held plus the number of callback invocations made. *)
Theorem created_is_held_plus_disposed (ops : list (@Op K V)) :
  opt_dispose opts = true -> opt_noDisposeOnSet opts = false ->
  let st := run ops new in
  fresh st = (List.length (cache st) + List.length (disposed st))%nat.
Proof.
  intros D N. induction ops as [|op ops IH] using rev_ind; [reflexivity|].
  rewrite run_snoc. cbn zeta in *.
  pose proof (consistent_run ops _ consistent_new) as C.
  set (st := run ops new) in *.
  destruct op as [k now|k now|k now|k v o now|k r| |now|now|data now
                 |k v o now now'|data];
    cbn [step].
  - unfold LRUCache.get. destruct (map_get k (cache st)) as [node|];
      [|exact IH].
    destruct (expired_lt node now); [|exact IH].
    destruct (opt_allowStale opts); [exact IH|].
    cbn [snd fresh cache disposed with_misses].
    now apply accounted_delete.
  - now rewrite has_state.
  - now rewrite peek_state.
  - now apply accounted_set.
  - now apply accounted_delete.
  - fold st. rewrite (clear_empties_cache st C D). cbn.
    rewrite length_app. unfold clear_calls. rewrite length_map. lia.
  - now apply accounted_prune.
  - exact IH.
  - unfold LRUCache.deserialize.
    assert (G : forall s : StateT, consistent s ->
               fresh s = (List.length (cache s) + List.length (disposed s))%nat ->
               let s' := fold_left
                           (fun (s : StateT) (e : K * V * ItemOptions) =>
                              set (fst (fst e)) (snd (fst e)) (snd e) now s)
                           data s in
               fresh s' = (List.length (cache s') + List.length (disposed s'))%nat).
    { induction data as [|e r IHd]; intros s Cs As; [exact As|].
      cbn [fold_left]. apply IHd; [now apply consistent_set|].
      now apply accounted_set. }
    apply G; [apply consistent_clear|].
    rewrite (clear_empties_cache st C D). cbn.
    rewrite length_app. unfold clear_calls. rewrite length_map. lia.
  - now apply accounted_set_at.
  - unfold LRUCache.deserialize_at.
    assert (G : forall s : StateT, consistent s ->
               fresh s = (List.length (cache s) + List.length (disposed s))%nat ->
               let s' := fold_left
                           (fun (s : StateT) (c : Timed) => set_timed c s)
                           data s in
               fresh s' = (List.length (cache s') + List.length (disposed s'))%nat).
    { induction data as [|e r IHd]; intros s Cs As; [exact As|].
      cbn [fold_left]. unfold LRUCache.set_timed at 2.
      apply IHd; [now apply consistent_set_at|].
      now apply accounted_set_at. }
    apply G; [apply consistent_clear|].
    rewrite (clear_empties_cache st C D). cbn.
    rewrite length_app. unfold clear_calls. rewrite length_map. lia.
Qed.

(** ** serialize and deserialize *)

(** X12.  In every state reached by public operations, [serialize] changes
    nothing and returns tuples with distinct keys, in the order of the
    index, each with its [size] set and with a [ttl] only when that [ttl] is
    positive; it returns at most one tuple per entry, and exactly one per
    entry when [allowStale] is on. *)
Theorem serialize_output_is_well_formed (ops : list (@Op K V)) now :
  let st := run ops new in
  let data := fst (serialize now st) in
  snd (serialize now st) = st /\
  NoDup (map (fun e : K * V * ItemOptions => fst (fst e)) data) /\
  Forall (fun e : K * V * ItemOptions =>
            io_size (snd e) <> None /\
            forall t, io_ttl (snd e) = Some t -> 0 < t) data /\
  (List.length data <= List.length (cache st))%nat /\
  (opt_allowStale opts = true ->
   map (fun e : K * V * ItemOptions => fst (fst e)) data = map fst (cache st)).
Proof.
  intros st data. pose proof (consistent_run ops _ consistent_new) as C.
  fold st in C. unfold data, LRUCache.serialize. cbn [fst snd].
  rewrite serialize_entries_emitted.
  assert (Hk : forall L : list (K * NodeT),
             map (fun e : K * V * ItemOptions => fst (fst e))
                 (map (emitted_tuple now) L) = map fst L).
  { intros L. rewrite map_map. now apply map_ext. }
  split; [reflexivity|]. split.
  { rewrite Hk. apply filter_keys_NoDup, C. }
  split.
  { apply Forall_map, Forall_forall. intros kn _. unfold emitted_tuple.
    cbn [snd io_size io_ttl]. split; [discriminate|].
    intros t. destruct (expiry (snd kn)) as [e|]; [|discriminate].
    destruct (e - now >? 0) eqn:T; [|discriminate].
    intros H. injection H as <-. rewrite Z.gtb_ltb in T.
    now apply Z.ltb_lt in T. }
  split.
  { rewrite length_map. apply filter_count_le. }
  intros Hs. rewrite Hk. f_equal.
  induction (cache st) as [|kn r IH]; [reflexivity|].
  cbn [filter]. unfold emitted at 1. rewrite Hs, orb_true_r. now f_equal.
Qed.

Lemma map_set_incl k n (m : list (K * NodeT)) :
  incl (map_set k n m) ((k, n) :: m).
Proof.
  induction m as [|[k0 n0] r IH]; cbn; [apply incl_refl|].
  destruct (K_eq_dec k k0).
  - intros x [<-|H]; [now left|right; now right].
  - intros x [<-|H]; [right; now left|].
    destruct (IH x H) as [<-|G]; [now left|right; now right].
Qed.

Lemma prune_incl now (st : StateT) :
  incl (cache (snd (prune now st))) (cache st).
Proof.
  unfold LRUCache.prune.
  assert (G : incl (cache (snd (prune_expired now st))) (cache st)).
  { unfold LRUCache.prune_expired.
    assert (L : forall (r : list (K * NodeT)) (acc : Z * StateT),
               incl (cache (snd (fold_left
                 (fun (acc : Z * StateT) (kn : K * NodeT) =>
                    if expired_le (snd kn) now
                    then (fst acc + 1, snd (delete (fst kn) EXPIRED (snd acc)))
                    else acc) r acc))) (cache (snd acc))).
    { induction r as [|kn r IH]; intros acc; [apply incl_refl|].
      cbn [fold_left]. eapply incl_tran; [apply IH|].
      destruct (expired_le (snd kn) now); [|apply incl_refl].
      cbn [snd]. rewrite delete_cache. apply map_delete_incl. }
    apply (L (cache st) (0, st)). }
  destruct (prune_expired now st) as [p st1]. cbn [snd] in G.
  eapply incl_tran; [apply prune_capacity_incl|exact G].
Qed.

Lemma set_key_values k v o now (st : StateT) :
  incl (map key_value (cache (set k v o now st)))
       ((k, v) :: map key_value (cache st)).
Proof.
  unfold LRUCache.set. intros x Hx. apply in_map_iff in Hx.
  destruct Hx as [kn [<- Hkn]]. apply prune_incl in Hkn.
  assert (G : In kn ((k, mkNode (fresh st) k v (item_size opts o v k)
                                (item_expiry opts o now)) :: cache st)).
  { revert Hkn. unfold set_entry.
    destruct (map_get k (cache st)) as [ex|];
      [destruct (negb (opt_noDisposeOnSet opts)); [dispose_cases|]|];
      cbn; apply map_set_incl. }
  destruct G as [<-|G]; [now left|right]. now apply in_map.
Qed.

(** X13.  For every state, [deserialize] replaces the content: every
    key/value pair held afterwards is one of the pairs of the data (nothing
    of the previous content survives), and [hits] and [misses] are those of
    before. *)
Theorem deserialize_holds_only_its_data
  (data : list (K * V * ItemOptions)) now (st : StateT) :
  let st' := deserialize data now st in
  incl (map key_value (cache st')) (map fst data) /\
  hits st' = hits st /\ misses st' = misses st.
Proof.
  intros st'. split; [|apply deserialize_counters].
  unfold st', LRUCache.deserialize.
  assert (G : forall (done rest : list (K * V * ItemOptions)) (s : StateT),
             incl (map key_value (cache s)) (map fst done) ->
             incl (map key_value
                     (cache (fold_left
                        (fun (s : StateT) (e : K * V * ItemOptions) =>
                           set (fst (fst e)) (snd (fst e)) (snd e) now s)
                        rest s)))
                  (map fst (done ++ rest))).
  { intros done rest. revert done.
    induction rest as [|e r IH]; intros done s H; cbn [fold_left].
    - now rewrite app_nil_r.
    - replace (done ++ e :: r) with ((done ++ [e]) ++ r)
        by now rewrite <- app_assoc.
      apply IH. intros x Hx. apply set_key_values in Hx.
      rewrite map_app. apply in_or_app. destruct Hx as [<-|Hx].
      + right. left. now destruct e as [[k v] o].
      + left. now apply H. }
  apply (G [] data (clear st)).
  unfold LRUCache.clear. cbn. intros x [].
Qed.

(** ** set on a key that is held *)

Lemma set_entry_disposed k v o now (st : StateT) :
  consistent st ->
  disposed (set_entry K_eq_dec opts k v o now st)
  = disposed st ++
    match map_get k (cache st) with
    | Some old =>
        if opt_dispose opts && negb (opt_noDisposeOnSet opts)
        then [mkCall (value old) k OVERWRITTEN (opt_asyncDispose opts)
                     true true]
        else []
    | None => []
    end.
Proof.
  intros C. unfold set_entry.
  destruct (map_get k (cache st)) as [old|] eqn:E.
  - destruct (consistent_attached _ _ _ C E) as [A1 A2].
    destruct (consistent_listed _ _ _ C E) as [_ Hk].
    rewrite andb_comm.
    destruct (negb (opt_noDisposeOnSet opts)); cbn [andb];
      [|cbn; now rewrite app_nil_r].
    unfold LRUCache.disposeItem. rewrite Hk in *. rewrite A1, A2.
    destruct (opt_dispose opts); cbn; [reflexivity|now rewrite app_nil_r].
  - cbn. now rewrite app_nil_r.
Qed.

(** X16.  In every state reached by public operations, [set] on a key that
    is held first hands the old value to the callback, once, with reason
    OVERWRITTEN and the old entry still in place (nothing at all when no
    callback is configured or [noDisposeOnSet] is on); every invocation
    after it in the same call is an EXPIRED or EVICTED one made by the
    closing [prune].  [set] on a key that is not held makes no OVERWRITTEN
    invocation. *)
Theorem set_disposes_overwritten_value_first (ops : list (@Op K V)) k v o now :
  let st := run ops new in
  exists rest,
    disposed (set k v o now st)
    = disposed st ++
      match map_get k (cache st) with
      | Some old =>
          if opt_dispose opts && negb (opt_noDisposeOnSet opts)
          then [mkCall (value old) k OVERWRITTEN (opt_asyncDispose opts)
                       true true]
          else []
      | None => []
      end ++ rest /\
    Forall (fun c => d_reason c = EXPIRED \/ d_reason c = EVICTED) rest.
Proof.
  intros st. pose proof (consistent_run ops _ consistent_new) as C.
  fold st in C.
  destruct (prune_fired now _ (consistent_set_entry k v o now st C))
    as [rest [Hr Fr]].
  exists rest. split.
  - unfold LRUCache.set. rewrite Hr, app_assoc. f_equal.
    now apply set_entry_disposed.
  - apply (Forall_impl _ (P := fun c => (d_reason c = EXPIRED /\ attached c) \/
                                        (d_reason c = EVICTED /\ detached c)));
      [|exact Fr].
    intros c [[H _]|[H _]]; [now left|now right].
Qed.

(** ** The recency list on its own *)

(** X14.  For a list whose nodes are distinct objects, [moveToFront] of a
    node of the list makes it the head, keeps the other nodes in their
    order, and keeps the [length] field and the set of nodes. *)
Theorem moveToFront_of_listed_node (l : DoublyLinkedList.t K V) (node : NodeT) :
  In node (dl_items l) -> NoDup (map nid (dl_items l)) ->
  let l' := moveToFront node l in
  dl_items l' = node :: unlink node (dl_items l) /\
  head l' = Some node /\
  dl_length l' = dl_length l /\
  Permutation (dl_items l') (dl_items l).
Proof.
  intros Hin Hnd l'.
  assert (E : dl_items l' = node :: unlink node (dl_items l) /\
              dl_length l' = dl_length l).
  { unfold l', moveToFront, head.
    destruct (dl_items l) as [|h r] eqn:Q; [contradiction|]. cbn [hd_error].
    destruct (Nat.eqb (nid h) (nid node)) eqn:N.
    - apply Nat.eqb_eq in N.
      assert (h = node) as ->.
      { destruct Hin as [->|Hin]; [reflexivity|]. cbn in Hnd.
        inversion Hnd as [|? ? Hx _]; subst. exfalso. apply Hx.
        rewrite N. now apply in_map. }
      rewrite Q. cbn [unlink]. now rewrite Nat.eqb_refl.
    - cbn [addToFront remove dl_items dl_length]. rewrite Q. split;
        [reflexivity|lia]. }
  destruct E as [E1 E2]. split; [exact E1|].
  split; [unfold head; now rewrite E1|]. split; [exact E2|].
  rewrite E1. symmetry. now apply unlink_perm.
Qed.

(** X15.  [removeTail] on an empty list returns nothing and leaves the list
    as it is; on a list of distinct nodes [r ++ [t]] it returns the last
    node [t] and leaves [r] with the [length] field lowered by one; and
    adding a new node at the front of a non-empty list does not change
    which node [removeTail] returns. *)
Theorem removeTail_takes_the_last_node (l : DoublyLinkedList.t K V) :
  NoDup (map nid (dl_items l)) ->
  (dl_items l = [] -> removeTail l = (None, l)) /\
  (forall r (t : NodeT),
      dl_items l = r ++ [t] ->
      removeTail l = (Some t, mkList r (dl_length l - 1))) /\
  (forall n : NodeT,
      dl_items l <> [] -> ~ In (nid n) (map nid (dl_items l)) ->
      fst (removeTail (addToFront n l)) = fst (removeTail l) /\
      dl_items (snd (removeTail (addToFront n l)))
      = n :: dl_items (snd (removeTail l))).
Proof.
  intros Hnd.
  assert (L : forall r (t : NodeT), last_node (r ++ [t]) = Some t).
  { induction r as [|a r IH]; intros t; [reflexivity|].
    cbn [app]. specialize (IH t). destruct (r ++ [t]) eqn:Q;
      [destruct r; discriminate|exact IH]. }
  split; [|split].
  - intros E. unfold removeTail, tail. now rewrite E.
  - intros r t E. unfold removeTail, tail, remove. rewrite E, L.
    rewrite unlink_tail; [|apply L|now rewrite <- E].
    now rewrite removelast_last.
  - intros n Hne Hfresh. unfold removeTail, tail.
    cbn [addToFront dl_items].
    destruct (dl_items l) as [|a r] eqn:Q; [congruence|].
    change (last_node (n :: a :: r)) with (last_node (a :: r)).
    destruct (last_node (a :: r)) as [t|] eqn:T;
      [|apply last_node_None in T; discriminate].
    cbn [fst snd]. split; [reflexivity|].
    unfold remove, addToFront. cbn [dl_items unlink]. rewrite Q.
    destruct (Nat.eqb (nid n) (nid t)) eqn:N; [|reflexivity].
    apply Nat.eqb_eq in N. exfalso. apply Hfresh. rewrite N.
    apply (in_map nid (a :: r)), last_node_In, T.
Qed.

(** ** Reads agree *)

(** X17.  For every state, key and clock reading, [peek] returns exactly
    what [get] returns there, and [has] is [true] exactly when that is a
    value: the three apply the same test, and only [get] has effects. *)
Theorem peek_and_has_agree_with_get (st : StateT) k now :
  fst (peek k now st) = fst (get k now st) /\
  (fst (has k now st) = true <-> fst (get k now st) <> None).
Proof.
  unfold LRUCache.peek, LRUCache.has, LRUCache.get.
  destruct (map_get k (cache st)) as [node|]; cbn [fst].
  - destruct (expired_lt node now); cbn [andb fst].
    + destruct (opt_allowStale opts); cbn [negb fst];
        (split; [reflexivity|split; congruence]).
    + split; [reflexivity|split; congruence].
  - split; [reflexivity|split; congruence].
Qed.

(** ** The capacity phase takes from the tail *)

Lemma last_node_split (t : NodeT) ns :
  last_node ns = Some t -> ns = removelast ns ++ [t].
Proof.
  induction ns as [|a r IH]; [discriminate|].
  destruct r as [|b r'].
  - cbn. intros H. now injection H as ->.
  - intros H. change (removelast (a :: b :: r')) with (a :: removelast (b :: r')).
    cbn [app]. f_equal. now apply IH.
Qed.

Lemma evict_tail_exact (st st' : StateT) :
  consistent st -> evict_tail st = Some st' ->
  exists t,
    dl_items (lst st) = dl_items (lst st') ++ [t] /\
    disposed st'
    = disposed st ++ (if opt_dispose opts then eviction_calls opts [t] else []).
Proof.
  intros C E. pose proof E as E0.
  unfold LRUCache.evict_tail, removeTail, tail in E.
  destruct (last_node (dl_items (lst st))) as [t|] eqn:L; [|discriminate].
  injection E as <-. exists t.
  pose proof (last_node_In _ _ L) as Hin.
  assert (I : indexed K_eq_dec (key t) (map_delete (key t) (cache st)) = false).
  { unfold indexed. rewrite map_get_delete_same; [reflexivity|apply C]. }
  assert (J : linked K_eq_dec (key t) (remove t (lst st)) = false).
  { apply linked_absent. cbn [remove dl_items].
    pose proof (unlink_perm _ _ Hin (c_ids _ C)) as PL.
    pose proof (Permutation_NoDup (Permutation_map key PL)
                  (consistent_list_keys _ C)) as N.
    now inversion N. }
  split.
  - assert (G : dl_items (lst st) = unlink t (dl_items (lst st)) ++ [t]).
    { rewrite (unlink_tail _ _ L (c_ids _ C)). now apply last_node_split. }
    dispose_cases; exact G.
  - unfold LRUCache.disposeItem. cbn [cache lst with_cache with_lst].
    rewrite I, J. destruct (opt_dispose opts); cbn;
      [reflexivity|now rewrite app_nil_r].
Qed.

Lemma prune_capacity_tail_stop p (st : StateT) :
  exists kept evicted,
    dl_items (lst st) = kept ++ evicted /\
    dl_items (lst st) = kept /\
    p = p + Z.of_nat (List.length evicted) /\
    disposed st
    = disposed st ++
      (if opt_dispose opts then eviction_calls opts (rev evicted) else []).
Proof.
  exists (dl_items (lst st)), []. split; [now rewrite app_nil_r|].
  split; [reflexivity|]. split; [cbn; lia|].
  destruct (opt_dispose opts); cbn; now rewrite app_nil_r.
Qed.

Lemma prune_capacity_tail fuel p (st : StateT) :
  consistent st ->
  exists kept evicted,
    dl_items (lst st) = kept ++ evicted /\
    dl_items (lst (snd (prune_capacity fuel p st))) = kept /\
    fst (prune_capacity fuel p st) = p + Z.of_nat (List.length evicted) /\
    disposed (snd (prune_capacity fuel p st))
    = disposed st ++
      (if opt_dispose opts then eviction_calls opts (rev evicted) else []).
Proof.
  revert p st. induction fuel as [|f IH]; intros p st C; cbn [prune_capacity].
  - apply prune_capacity_tail_stop.
  - destruct (over_capacity opts st); [|apply prune_capacity_tail_stop].
    destruct (evict_tail st) as [st1|] eqn:E;
      [|apply prune_capacity_tail_stop].
    destruct (evict_tail_exact _ _ C E) as [t [Hi Hd]].
    destruct (IH (p + 1) st1 (consistent_evict_tail _ _ C E))
      as (kept & ev & H1 & H2 & H3 & H4).
    exists kept, (ev ++ [t]). split; [|split; [exact H2|split]].
    + now rewrite Hi, H1, app_assoc.
    + rewrite H3, length_app. cbn [List.length]. lia.
    + rewrite H4, Hd, rev_unit, <- app_assoc. f_equal.
      now destruct (opt_dispose opts).
Qed.

(** X18.  Take a state reached by public operations and a [set] whose
    closing [prune] reads the clock at [now'], when no entry held is expired
    and the new entry (its expiry counted from the reading [now]) is not
    yet expired either.  That [set] evicts from the tail only: with the new
    entry put in front of the previous list (less the key's old entry),
    that list splits into a kept front part and an evicted back part; the
    list when [set] returns is the kept part, and after the OVERWRITTEN
    invocation, if any, the callback is invoked for the evicted nodes from
    the tail upwards (least recently used first), with reason EVICTED and
    with the entry already out of the index and the list. *)
Theorem set_evicts_from_the_tail (ops : list (@Op K V)) k v o now now' :
  let st := run ops new in
  Forall (fun kn => expired_le (snd kn) now' = false) (cache st) ->
  item_ttl opts o <= 0 \/ now' < now + item_ttl opts o ->
  exists kept evicted,
    mkNode (fresh st) k v (item_size opts o v k) (item_expiry opts o now)
    :: match map_get k (cache st) with
       | Some old => unlink old (dl_items (lst st))
       | None => dl_items (lst st)
       end
    = kept ++ evicted /\
    dl_items (lst (set_at k v o now now' st)) = kept /\
    disposed (set_at k v o now now' st)
    = disposed st ++
      match map_get k (cache st) with
      | Some old =>
          if opt_dispose opts && negb (opt_noDisposeOnSet opts)
          then [mkCall (value old) k OVERWRITTEN (opt_asyncDispose opts)
                       true true]
          else []
      | None => []
      end ++
      (if opt_dispose opts then eviction_calls opts (rev evicted) else []).
Proof.
  intros st F Hclock. pose proof (consistent_run ops _ consistent_new) as C.
  fold st in C.
  set (s5 := set_entry K_eq_dec opts k v o now st).
  pose proof (consistent_set_entry k v o now st C) as C5. fold s5 in C5.
  assert (F5 : Forall (fun kn => expired_le (snd kn) now' = false) (cache s5)).
  { unfold s5, set_entry.
    destruct (map_get k (cache st)) as [ex|];
      [destruct (negb (opt_noDisposeOnSet opts)); [dispose_cases|]|];
      cbn; (apply map_set_Forall; [now apply item_expiry_live_at|exact F]). }
  destruct (prune_capacity_tail (capacity_fuel s5) 0 s5 C5)
    as (kept & ev & H1 & H2 & _ & H4).
  exists kept, ev. unfold LRUCache.set_at, LRUCache.prune. fold s5.
  rewrite (prune_expired_none now' s5 F5).
  split; [|split; [exact H2|]].
  - rewrite <- H1. unfold s5. now rewrite set_entry_items.
  - rewrite H4. unfold s5. rewrite (set_entry_disposed k v o now st C).
    now rewrite <- app_assoc.
Qed.

(** ** The recency list is the touch order of the keys held *)


















(** ** Reachable caches are within their count bound *)

Lemma within_count_shrink (st st' : StateT) :
  opt_maxSize opts = None -> within_limits opts st ->
  (List.length (cache st') <= List.length (cache st))%nat ->
  within_limits opts st'.
Proof.
  intros Hs [Hnil|Hover] Hlen.
  - left. rewrite Hnil in Hlen. destruct (cache st'); [reflexivity|].
    cbn in Hlen. lia.
  - right. unfold over_capacity in *. rewrite Hs, orb_false_r in *.
    destruct (opt_max opts) as [m|]; [|reflexivity].
    unfold LRUCache.size, map_size in *. rewrite Z.gtb_ltb in *.
    apply Z.ltb_ge in Hover. apply Z.ltb_ge. lia.
Qed.

Lemma count_fits_step op (st : StateT) :
  opt_maxSize opts = None -> consistent st -> within_limits opts st ->
  within_limits opts (step op st).
Proof.
  intros Hs C L.
  destruct op as [k now|k now|k now|k v o now|k r| |now|now|data now
                 |k v o now now'|data];
    cbn [step].
  - apply (within_count_shrink st); [assumption..|].
    unfold LRUCache.get. destruct (map_get k (cache st)) as [node|];
      [|cbn; lia].
    destruct (expired_lt node now); [|cbn; lia].
    destruct (opt_allowStale opts); [cbn; lia|].
    cbn [snd cache with_misses]. rewrite delete_cache.
    apply map_delete_shorter.
  - now rewrite has_state.
  - now rewrite peek_state.
  - now apply within_limits_prune, consistent_set_entry.
  - apply (within_count_shrink st); [assumption..|].
    rewrite delete_cache. apply map_delete_shorter.
  - now left.
  - now apply within_limits_prune.
  - exact L.
  - unfold LRUCache.deserialize.
    assert (G : forall s : StateT,
               consistent s -> within_limits opts s ->
               within_limits opts
                 (fold_left
                    (fun (s : StateT) (e : K * V * ItemOptions) =>
                       set (fst (fst e)) (snd (fst e)) (snd e) now s) data s)).
    { induction data as [|e r IH]; intros s Cs Ls; [exact Ls|].
      cbn [fold_left]. apply IH; [now apply consistent_set|].
      now apply within_limits_prune, consistent_set_entry. }
    apply G; [apply consistent_clear|now left].
  - now apply within_limits_prune, consistent_set_entry.
  - unfold LRUCache.deserialize_at.
    assert (G : forall s : StateT,
               consistent s -> within_limits opts s ->
               within_limits opts
                 (fold_left (fun (s : StateT) (c : Timed) => set_timed c s)
                            data s)).
    { induction data as [|e r IH]; intros s Cs Ls; [exact Ls|].
      cbn [fold_left]. apply IH; unfold LRUCache.set_timed;
        [now apply consistent_set_at|].
      now apply within_limits_prune, consistent_set_entry. }
    apply G; [apply consistent_clear|now left].
Qed.

Lemma count_fits_run ops :
  opt_maxSize opts = None ->
  consistent (run ops new) /\ within_limits opts (run ops new).
Proof.
  intros Hs. induction ops as [|op ops IH] using rev_ind.
  - split; [apply consistent_new|now left].
  - rewrite run_snoc. destruct IH as [C L].
    split; [now apply consistent_step|now apply count_fits_step].
Qed.

(** ** The round trip, with the clock readings the source takes *)

Lemma serialize_entries_at_emitted (clock : K -> Z) (m : list (K * NodeT)) :
  serialize_entries_at opts clock m
  = map (fun kn => emitted_tuple (clock (fst kn)) kn)
        (filter (fun kn => emitted opts (clock (fst kn)) (snd kn)) m).
Proof.
  induction m as [|kn r IH]; [reflexivity|].
  cbn [serialize_entries_at filter]. rewrite serialize_entry_emitted.
  destruct (emitted opts (clock (fst kn)) (snd kn)); cbn [map]; now rewrite IH.
Qed.

Lemma with_readings_emitted (saved set_clock prune_clock : K -> Z)
  (L : list (K * NodeT)) :
  with_readings set_clock prune_clock
    (map (fun kn => emitted_tuple (saved (fst kn)) kn) L)
  = map (fun kn => (emitted_tuple (saved (fst kn)) kn,
                    (set_clock (fst kn), prune_clock (fst kn)))) L.
Proof. unfold with_readings. rewrite map_map. reflexivity. Qed.

Lemma set_at_without_pruning k v o now now' (st : StateT) :
  Forall (fun kn => expired_le (snd kn) now' = false)
         (cache (set_entry K_eq_dec opts k v o now st)) ->
  over_capacity opts (set_entry K_eq_dec opts k v o now st) = false ->
  set_at k v o now now' st = set_entry K_eq_dec opts k v o now st.
Proof.
  intros F H. unfold LRUCache.set_at, LRUCache.prune.
  rewrite (prune_expired_none _ _ F). unfold capacity_fuel.
  cbn [prune_capacity]. now rewrite H.
Qed.

Lemma restore_loop_at (saved set_clock prune_clock : K -> Z)
  (L : list (K * NodeT)) :
  opt_maxSize opts = None ->
  forall s : StateT,
  NoDup (map fst (cache s) ++ map fst L) ->
  (forall kn', In kn' L ->
     Forall (fun x => expired_le (snd x) (prune_clock (fst kn')) = false)
            (cache s)) ->
  (forall kn kn' e, In kn L -> In kn' L ->
     rebased opts (saved (fst kn)) (set_clock (fst kn)) (snd kn) = Some e ->
     prune_clock (fst kn') < e) ->
  (forall m, opt_max opts = Some m ->
             LRUCache.size s + Z.of_nat (List.length L) <= m) ->
  exists added,
    cache (fold_left (fun (s : StateT) (c : Timed) => set_timed c s)
             (map (fun kn => (emitted_tuple (saved (fst kn)) kn,
                              (set_clock (fst kn), prune_clock (fst kn)))) L)
             s)
    = cache s ++ added /\
    Forall2 (fun old new =>
               restores opts (saved (fst old)) (set_clock (fst old)) old new)
            L added.
Proof.
  intros Hs. induction L as [|kn r IH]; intros s Hnd Hexp Hclock Hcount.
  - exists []. cbn. rewrite app_nil_r. split; [reflexivity|constructor].
  - set (k := fst kn). set (v := value (snd kn)).
    set (o := snd (emitted_tuple (saved k) kn)).
    set (node := mkNode (fresh s) k v (item_size opts o v k)
                        (item_expiry opts o (set_clock k))).
    assert (Hnone : map_get k (cache s) = None).
    { apply map_get_None. intros H. cbn [map] in Hnd.
      apply NoDup_remove_2 in Hnd. apply Hnd, in_or_app. now left. }
    pose proof (set_entry_absent k v o (set_clock k) s Hnone) as E5.
    fold node in E5.
    assert (Hlive : forall kn', In kn' (kn :: r) ->
              expired_le node (prune_clock (fst kn')) = false).
    { intros kn' Hin. unfold expired_le, node. cbn [expiry].
      unfold o. rewrite rebased_tuple.
      destruct (rebased opts (saved k) (set_clock k) (snd kn)) as [e|] eqn:R;
        [|reflexivity].
      apply Z.leb_gt. apply (Hclock kn kn' e); [now left|exact Hin|exact R]. }
    assert (Hset : set_at k v o (set_clock k) (prune_clock k) s
                   = set_entry K_eq_dec opts k v o (set_clock k) s).
    { apply set_at_without_pruning; rewrite E5; cbn [cache].
      - apply Forall_app. split; [apply (Hexp kn); now left|].
        constructor; [|constructor]. apply (Hlive kn). now left.
      - unfold over_capacity. rewrite Hs, orb_false_r.
        destruct (opt_max opts) as [m|] eqn:M; [|reflexivity].
        specialize (Hcount m eq_refl).
        unfold LRUCache.size, map_size in *. cbn [cache List.length] in *.
        rewrite length_app. cbn [List.length].
        rewrite Z.gtb_ltb. apply Z.ltb_ge. lia. }
    cbn [map fold_left].
    change (set_timed (emitted_tuple (saved (fst kn)) kn,
                       (set_clock (fst kn), prune_clock (fst kn))) s)
      with (set_at k v o (set_clock k) (prune_clock k) s).
    rewrite Hset.
    destruct (IH (set_entry K_eq_dec opts k v o (set_clock k) s))
      as [added [Hc F]].
    + rewrite E5. cbn [cache]. rewrite map_app, <- app_assoc. exact Hnd.
    + intros kn' Hin. rewrite E5. cbn [cache]. apply Forall_app.
      split; [apply Hexp; now right|].
      constructor; [|constructor]. apply Hlive. now right.
    + intros a b e Ha Hb. apply Hclock; now right.
    + intros m M. specialize (Hcount m M). rewrite E5.
      unfold LRUCache.size, map_size in *. cbn [cache List.length] in *.
      rewrite length_app. cbn [List.length]. lia.
    + exists ((k, node) :: added). split.
      * rewrite Hc, E5. cbn [cache]. now rewrite <- app_assoc.
      * constructor; [|assumption].
        unfold restores. cbn [fst snd key value DoublyLinkedList.size expiry].
        repeat split; try reflexivity. apply rebased_tuple.
Qed.

Lemma roundtrip_at (saved set_clock prune_clock : K -> Z) (st : StateT) :
  opt_maxSize opts = None ->
  NoDup (map fst (cache st)) -> within_limits opts st ->
  (forall kn kn' e,
      In kn (filter (fun kn => emitted opts (saved (fst kn)) (snd kn))
                    (cache st)) ->
      In kn' (filter (fun kn => emitted opts (saved (fst kn)) (snd kn))
                     (cache st)) ->
      rebased opts (saved (fst kn)) (set_clock (fst kn)) (snd kn) = Some e ->
      prune_clock (fst kn') < e) ->
  Forall2 (fun old new =>
             restores opts (saved (fst old)) (set_clock (fst old)) old new)
          (filter (fun kn => emitted opts (saved (fst kn)) (snd kn)) (cache st))
          (cache (deserialize_at
                    (with_readings set_clock prune_clock
                       (fst (serialize_at saved st))) new)).
Proof.
  intros Hs Hnd Hlim Hclock.
  unfold LRUCache.deserialize_at, LRUCache.serialize_at.
  cbn [fst]. rewrite clear_new, serialize_entries_at_emitted,
    with_readings_emitted.
  destruct Hlim as [Hnil|Hover].
  { rewrite Hnil. cbn. constructor. }
  destruct (restore_loop_at saved set_clock prune_clock
              (filter (fun kn => emitted opts (saved (fst kn)) (snd kn))
                      (cache st)) Hs new)
    as [added [Hc F]].
  - cbn. now apply filter_keys_NoDup.
  - intros kn' _. constructor.
  - exact Hclock.
  - intros m M. unfold over_capacity in Hover. rewrite M in Hover.
    apply orb_false_iff in Hover. destruct Hover as [H _].
    rewrite Z.gtb_ltb in H. apply Z.ltb_ge in H.
    unfold LRUCache.size, map_size in *. cbn [cache List.length].
    pose proof (filter_count_le _
                  (fun kn => emitted opts (saved (fst kn)) (snd kn)) (cache st)).
    change (cache new) with (@nil (K * NodeT)). cbn [List.length]. lia.
  - rewrite Hc. exact F.
Qed.

Lemma restores_key_value_at (f g : K * NodeT -> Z) (l l' : list (K * NodeT)) :
  Forall2 (fun old new => restores opts (f old) (g old) old new) l l' ->
  map key_value l' = map key_value l.
Proof.
  induction 1 as [|a b r r' Hab Hr IH]; [reflexivity|].
  cbn [map]. rewrite IH. f_equal. unfold key_value.
  destruct Hab as (H1 & _ & H3 & _). now rewrite H1, H3.
Qed.

(** C8, amended.  Let [st] be a cache without [maxSize] reached from a new
    one by public operations.  [serialize] reads the clock at every entry
    ([saved k] at the entry of key [k]); [deserialize] into a new cache with
    the same configuration reads it twice for every tuple ([set_clock k] for
    the expiry, [prune_clock k] in the closing [prune]).  If every reading
    of a closing [prune] is earlier than the new expiry of every entry being
    restored, the new cache holds, in the same order and with the same
    values and sizes, exactly the entries [serialize] wrote: the entries not
    expired at their reading and, when [allowStale] is on, the expired ones
    as well; with [allowStale] off these are exactly the non-expired keys
    and values.  The expiry of a restored entry is the remaining TTL
    [serialize] measured, counted from the reading of its [set] (the default
    TTL where no TTL was written), so it is live at that reading. *)
Theorem roundtrip_restores_written_entries (ops : list (@Op K V))
  (saved set_clock prune_clock : K -> Z) :
  opt_maxSize opts = None ->
  let st := run ops new in
  let written :=
    filter (fun kn => emitted opts (saved (fst kn)) (snd kn)) (cache st) in
  (forall kn kn' e,
      In kn written -> In kn' written ->
      rebased opts (saved (fst kn)) (set_clock (fst kn)) (snd kn) = Some e ->
      prune_clock (fst kn') < e) ->
  let data := fst (serialize_at saved st) in
  let st' := deserialize_at (with_readings set_clock prune_clock data) new in
  data = map (fun kn => emitted_tuple (saved (fst kn)) kn) written /\
  map key_value (cache st') = map key_value written /\
  (opt_allowStale opts = false ->
   map key_value (cache st')
   = map key_value
       (filter (fun kn => live (saved (fst kn)) (snd kn)) (cache st))) /\
  Forall2 (fun old new =>
             restores opts (saved (fst old)) (set_clock (fst old)) old new)
          written (cache st') /\
  Forall (fun kn => live (set_clock (fst kn)) (snd kn) = true) (cache st').
Proof.
  intros Hs st written Hclock data st'.
  destruct (count_fits_run ops Hs) as [C Hlim]. fold st in C, Hlim.
  pose proof (roundtrip_at saved set_clock prune_clock st Hs (c_keys _ C)
                Hlim Hclock) as F.
  fold written data st' in F.
  pose proof (restores_key_value_at (fun old => saved (fst old))
                (fun old => set_clock (fst old)) _ _ F) as KV.
  split; [apply serialize_entries_at_emitted|].
  split; [exact KV|]. split; [|split; [exact F|]].
  - intros Ha. rewrite KV. unfold written. f_equal. apply filter_ext.
    intros kn. unfold emitted. now rewrite Ha, orb_false_r.
  - clear - F. induction F as [|a b r r' Hab Hr IH]; constructor; [|exact IH].
    destruct Hab as (H1 & _ & _ & _ & H). rewrite H1.
    now apply (rebased_live (saved (fst a)) (set_clock (fst a)) (snd a)).
Qed.

(** C10, amended.  In a cache without [maxSize] reached from a new one by
    public operations, an entry that is expired when [serialize] reaches it
    ([expiry <= saved k]) and still held under [allowStale] is written with
    its size and no [ttl] field.  After [deserialize] into a new cache with
    the same configuration, if every reading of a closing [prune] is earlier
    than the new expiry of every entry being restored, the key is present
    again with the same value and size, and its expiry is the one the
    default TTL gives a new entry: none when the default TTL is not
    positive, the reading of its [set] plus that TTL when it is. *)
Theorem stale_entry_restored_under_default_ttl (ops : list (@Op K V))
  (saved set_clock prune_clock : K -> Z) k n e :
  opt_maxSize opts = None ->
  let st := run ops new in
  opt_allowStale opts = true ->
  map_get k (cache st) = Some n -> expiry n = Some e -> e <= saved k ->
  (forall kn kn' e',
      In kn (cache st) -> In kn' (cache st) ->
      rebased opts (saved (fst kn)) (set_clock (fst kn)) (snd kn) = Some e' ->
      prune_clock (fst kn') < e') ->
  let data := fst (serialize_at saved st) in
  In (k, value n,
      {| io_ttl := None; io_size := Some (DoublyLinkedList.size n) |}) data /\
  exists n',
    map_get k (cache (deserialize_at
                        (with_readings set_clock prune_clock data) new))
    = Some n' /\
    value n' = value n /\
    DoublyLinkedList.size n' = DoublyLinkedList.size n /\
    expiry n'
    = (if opt_ttl opts >? 0 then Some (set_clock k + opt_ttl opts) else None).
Proof.
  intros Hs st Ha Hget He Hle Hclock data.
  destruct (count_fits_run ops Hs) as [C Hlim]. fold st in C, Hlim.
  assert (Hin : In (k, n)
                   (filter (fun kn => emitted opts (saved (fst kn)) (snd kn))
                           (cache st))).
  { apply filter_In. split; [now apply map_get_In|].
    unfold emitted. now rewrite Ha, orb_true_r. }
  assert (Hdead : (e - saved k >? 0) = false)
    by (rewrite Z.gtb_ltb; apply Z.ltb_ge; lia).
  split.
  - unfold data, LRUCache.serialize_at. cbn [fst].
    rewrite serialize_entries_at_emitted.
    apply in_map_iff. exists (k, n). split; [|exact Hin].
    unfold emitted_tuple. cbn [fst snd]. now rewrite He, Hdead.
  - assert (F := roundtrip_at saved set_clock prune_clock st Hs (c_keys _ C)
                   Hlim).
    fold data in F.
    assert (G : forall kn kn' e',
               In kn (filter (fun kn => emitted opts (saved (fst kn)) (snd kn))
                             (cache st)) ->
               In kn' (filter (fun kn => emitted opts (saved (fst kn)) (snd kn))
                              (cache st)) ->
               rebased opts (saved (fst kn)) (set_clock (fst kn)) (snd kn)
               = Some e' ->
               prune_clock (fst kn') < e').
    { intros kn kn' e' H1 H2. apply Hclock.
      - apply filter_In in H1. tauto.
      - apply filter_In in H2. tauto. }
    specialize (F G).
    destruct (Forall2_In_left _ _ _ _ _ _ F Hin) as [[k' n'] [Hin' R]].
    destruct R as (R1 & _ & R3 & R4 & R5). cbn [fst snd] in *. subst k'.
    exists n'. split; [|split; [exact R3|split; [exact R4|]]].
    + apply In_map_get; [|exact Hin'].
      apply (c_keys _ (consistent_deserialize_at _ new)).
    + rewrite R5. unfold rebased. rewrite He, Hdead.
      unfold item_expiry, item_ttl. reflexivity.
Qed.

(** ** The callback runs before the entry is detached (claim C2) *)







End Verification.

(** * The claims on concrete caches *)

Section Scenarios.
Import DoublyLinkedList LRUCache Scenario.
Open Scope string_scope.

(** ** C1: one oversized item *)



(** ** C2: what the callback finds of the entry it is handed *)


(** ** C3: the instant of expiry *)

(** C3 (the code departs from the claim).  [ttl = 1000], [allowStale] off,
    [set("x", 9)] at time 0, so that the entry expires at 1000.  At time
    1000, [get("x")] takes the fresh path: it returns 9, counts a hit, keeps
    the entry and disposes nothing; a miss with an EXPIRED removal is what
    the claim prescribes.  At the same instant [prune] removes the entry as
    EXPIRED and [serialize] omits it. *)
Theorem get_at_expiry_instant_is_a_hit :
  let o := with_ttl 1000 (with_dispose defaults) in
  let st := LRUCache.set string_dec o "x" 9 noItemOptions 0 fresh_cache in
  map_get string_dec "x" (cache st) = Some (mkNode 0 "x" 9 1 (Some 1000)) /\
  get string_dec o "x" 1000 st = (Some 9, with_hits 1 st) /\
  fst (has string_dec o "x" 1000 st) = true /\
  cache (snd (prune string_dec o 1000 st)) = [] /\
  disposed (snd (prune string_dec o 1000 st))
  = [mkCall 9 "x" EXPIRED false true true] /\
  fst (serialize o 1000 st) = [].
Proof. vm_compute. repeat split. Qed.

(** ** C5: the accounting on doubles *)

(** C5 (the code departs from the claim).  On a new cache without limits,
    [set("a", 1, {size: 2^53})], [set("b", 2, {size: 1})], [delete("a")]
    leave [b] alone in the cache, with size 1.  In exact arithmetic
    [totalSize] is then 1, the recount.  The source computes on doubles:
    [2^53 + 1] rounds to [2^53], so that [totalSize] ends at 0 while the
    recount is 1.  Likewise with the sizes 0.1 and 0.2 (the doubles nearest
    to them): after [set], [set], [delete] of the first, [totalSize] is
    0.20000000000000004 and the size held is 0.2. *)
Theorem totalSize_drifts_from_recount :
  let o := defaults in
  let st := run string_dec o
              [OpSet "a" 1 (sized 9007199254740992) 0; OpSet "b" 2 (sized 1) 0;
               OpDelete "a" DELETED] fresh_cache in
  map (fun kn => (fst kn, DoublyLinkedList.size (snd kn))) (cache st)
  = [("b", 1)] /\
  LRUCache.totalSize st = 1 /\
  Accounting.totalSize
    [Accounting.Added 9007199254740992; Accounting.Added 1;
     Accounting.Removed 9007199254740992] = 0%float /\
  Accounting.recount [1%float] = 1%float /\
  PrimFloat.eqb 0 1 = false /\
  Accounting.totalSize
    [Accounting.Added 0x1.999999999999ap-4; Accounting.Added 0x1.999999999999ap-3;
     Accounting.Removed 0x1.999999999999ap-4] = 0x1.999999999999bp-3%float /\
  Accounting.recount [0x1.999999999999ap-3%float] = 0x1.999999999999ap-3%float /\
  PrimFloat.eqb 0x1.999999999999bp-3 0x1.999999999999ap-3 = false.
Proof. vm_compute. repeat split. Qed.

(** ** C6: eviction by count *)



(** A [get] between the [set]s changes who is evicted: with [max = 2],
    [set(a,1)], [set(b,2)], [get(a)], [set(c,3)] evicts [b]. *)
Example get_touch_protects_entry :
  let o := with_max 2 (with_dispose defaults) in
  let st := run string_dec o
              [OpSet "a" 1 noItemOptions 0; OpSet "b" 2 noItemOptions 0;
               OpGet "a" 0; OpSet "c" 3 noItemOptions 0] fresh_cache in
  map key (dl_items (lst st)) = ["c"; "a"] /\
  disposed st = [mkCall 2 "b" EVICTED false false false] /\
  fold_left (lru_step string_dec 2)
    [OpSet "a" 1 noItemOptions 0; OpSet "b" 2 noItemOptions 0;
     OpGet "a" 0; OpSet "c" 3 noItemOptions 0] []
  = ["c"; "a"].
Proof. vm_compute. repeat split. Qed.

(** ** C7: stale reads *)

(** C7 (the code departs from the claim).  [ttl = 1000], [allowStale] on;
    [set("x", 9)] and [set("y", 8)] at time 0, so that both expire at 1000
    and the recency list is [y, x].  At time 1000, the instant of expiry,
    [get("x")] takes the fresh path: it returns 9 and counts a hit, but it
    also moves [x] to the front of the list; the claim has [x] expired at
    that instant and left where it is.  One millisecond later [get("x")]
    returns 9, counts a hit and moves nothing. *)
Theorem stale_get_at_expiry_instant_moves_entry :
  let o := with_allowStale (with_ttl 1000 defaults) in
  let st := run string_dec o
              [OpSet "x" 9 noItemOptions 0; OpSet "y" 8 noItemOptions 0]
              fresh_cache in
  map_get string_dec "x" (cache st) = Some (mkNode 0 "x" 9 1 (Some 1000)) /\
  map key (dl_items (lst st)) = ["y"; "x"] /\
  fst (get string_dec o "x" 1000 st) = Some 9 /\
  hits (snd (get string_dec o "x" 1000 st)) = 1 /\
  map key (dl_items (lst (snd (get string_dec o "x" 1000 st)))) = ["x"; "y"] /\
  fst (get string_dec o "x" 1001 st) = Some 9 /\
  hits (snd (get string_dec o "x" 1001 st)) = 1 /\
  map key (dl_items (lst (snd (get string_dec o "x" 1001 st)))) = ["y"; "x"].
Proof. vm_compute. repeat split. Qed.

(** ** C8 and C10: the round trip *)

(** [ttl = 1000], [allowStale] on; [set("x", 9)] at 0; at 2000 the cache has
    no non-expired entry, and the cache restored from its serialization
    holds [x]. *)
Lemma roundtrip_counterexample :
  let o := with_allowStale (with_ttl 1000 defaults) in
  let st := LRUCache.set string_dec o "x" 9 noItemOptions 0 fresh_cache in
  let st' := deserialize string_dec o (fst (serialize o 2000 st)) 2000
               fresh_cache in
  map key_value (filter (fun kn => live 2000 (snd kn)) (cache st)) = [] /\
  map key_value (cache st') = [("x", 9)] /\
  fst (peek string_dec o "x" 2000 st') = Some 9.
Proof. vm_compute. repeat split. Qed.

(** Why the restore must not outlast what it restores: [set("x", 9, {ttl:
    1000})] at 0 is serialized at 999 with a remaining TTL of 1; when the
    [set] of the restore reads the clock at 2000 and its closing [prune] at
    2001, [x] is restored with expiry 2001 and removed at once. *)
Example restore_drops_entry_that_expires_meanwhile :
  let o := with_dispose defaults in
  let st := LRUCache.set string_dec o "x" 9
              {| io_ttl := Some 1000; io_size := None |} 0 fresh_cache in
  let data := fst (serialize_at o (fun _ => 999) st) in
  let st' := deserialize_at string_dec o
               (with_readings (fun _ => 2000) (fun _ => 2001) data)
               fresh_cache in
  data = [("x", 9, {| io_ttl := Some 1; io_size := Some 1 |})] /\
  cache st' = [] /\
  disposed st' = [mkCall 9 "x" EXPIRED false true true].
Proof. vm_compute. repeat split. Qed.

(** Why there must be no [maxSize]: a restore adds the sizes up again, and
    evicts when the running sum exceeds the bound.  On doubles the sum
    depends on the history: with [maxSize = 2^53], [set(a, _, {size: 2^53})],
    [set(d, _, {size: 1})], [set(b, _, {size: 2})], [delete(d)] leave [a]
    and [b] with a [totalSize] of [2^53], within the bound, while restoring
    [a] and [b] adds up to [2^53 + 2], over it. *)
Example restore_adds_sizes_up_again :
  Accounting.totalSize
    [Accounting.Added 9007199254740992; Accounting.Added 1;
     Accounting.Added 2; Accounting.Removed 1] = 9007199254740992%float /\
  Accounting.totalSize
    [Accounting.Added 9007199254740992; Accounting.Added 2]
  = 9007199254740994%float /\
  PrimFloat.ltb 9007199254740992 9007199254740994 = true.
Proof. vm_compute. repeat split. Qed.

(** In exact arithmetic the same happens with a negative size: with
    [maxSize = 10], [set(a, _, {size: -10})], [set(b, _, {size: 15})],
    [delete(a)] leave [b] alone with size 15; restoring its serialization
    evicts [b] on insertion. *)
Example restore_evicts_over_maxSize :
  let o := with_maxSize 10 defaults in
  let st := run string_dec o
              [OpSet "a" 1 (sized (-10)) 0; OpSet "b" 2 (sized 15) 0;
               OpDelete "a" DELETED] fresh_cache in
  let st' := deserialize string_dec o (fst (serialize o 0 st)) 0 fresh_cache in
  map key_value (cache st) = [("b", 2)] /\ totalSize st = 15 /\
  cache st' = [].
Proof. vm_compute. repeat split. Qed.

Lemma roundtrip_restores_written_entries_witness :
  let o := with_allowStale (with_ttl 1000 defaults) in
  let st := run string_dec o [OpSet "x" 9 noItemOptions 0] fresh_cache in
  let data := fst (serialize_at o (fun _ => 2000) st) in
  let st' := deserialize_at string_dec o
               (with_readings (fun _ => 2500) (fun _ => 2600) data)
               fresh_cache in
  opt_maxSize o = None /\
  map key_value (cache st') = [("x", 9)].
Proof.
  split; [reflexivity|].
  refine (proj1 (proj2
            (roundtrip_restores_written_entries string_dec
               (with_allowStale (with_ttl 1000 defaults))
               [OpSet "x" 9 noItemOptions 0]
               (fun _ => 2000) (fun _ => 2500) (fun _ => 2600) eq_refl _))).
  intros kn kn' e [<-|[]] _ R. vm_compute in R. injection R as <-. lia.
Defined.

(** Same cache: the stale entry comes back with expiry 3000, the default TTL
    counted from the restore, and [prune] at 3000 removes it as expired. *)
Lemma immortal_after_roundtrip_counterexample :
  let o := with_allowStale (with_ttl 1000 (with_dispose defaults)) in
  let st := LRUCache.set string_dec o "x" 9 noItemOptions 0 fresh_cache in
  let st' := deserialize string_dec o (fst (serialize o 2000 st)) 2000
               fresh_cache in
  fst (serialize o 2000 st)
  = [("x", 9, {| io_ttl := None; io_size := Some 1 |})] /\
  map_get string_dec "x" (cache st') = Some (mkNode 0 "x" 9 1 (Some 3000)) /\
  cache (snd (prune string_dec o 3000 st')) = [] /\
  disposed (snd (prune string_dec o 3000 st'))
  = [mkCall 9 "x" EXPIRED false true true].
Proof. vm_compute. repeat split. Qed.

Lemma stale_entry_restored_under_default_ttl_witness :
  let o := with_allowStale (with_ttl 1000 defaults) in
  let st := run string_dec o [OpSet "x" 9 noItemOptions 0] fresh_cache in
  let data := fst (serialize_at o (fun _ => 2000) st) in
  opt_maxSize o = None /\ 1000 <= 2000 /\
  exists n',
    map_get string_dec "x"
      (cache (deserialize_at string_dec o
                (with_readings (fun _ => 2500) (fun _ => 2600) data)
                fresh_cache)) = Some n' /\
    value n' = 9 /\ DoublyLinkedList.size n' = 1 /\
    expiry n' = Some 3500.
Proof.
  split; [reflexivity|]. split; [lia|].
  refine (proj2
            (stale_entry_restored_under_default_ttl string_dec
               (with_allowStale (with_ttl 1000 defaults))
               [OpSet "x" 9 noItemOptions 0]
               (fun _ => 2000) (fun _ => 2500) (fun _ => 2600)
               "x" (mkNode 0 "x" 9 1 (Some 1000)) 1000
               eq_refl eq_refl eq_refl eq_refl _ _)).
  - lia.
  - intros kn kn' e [<-|[]] _ R. vm_compute in R. injection R as <-. lia.
Defined.

End Scenarios.

(** * Further properties on concrete caches *)

Section MoreScenarios.
Import DoublyLinkedList LRUCache Scenario.
Open Scope string_scope.

Lemma set_admits_item_that_fits_witness :
  let o := with_max 2 defaults in
  let st := run string_dec o [OpSet "a" 1 noItemOptions 0] fresh_cache in
  fst (peek string_dec o "b" 5 (set_at string_dec o "b" 2 noItemOptions 0 1 st))
  = Some 2.
Proof.
  refine (proj1 (proj1 (proj2 (proj2
            (set_admits_item_that_fits string_dec (with_max 2 defaults)
               [OpSet "a" 1 noItemOptions 0] "b" 2 noItemOptions 0 1 _ eq_refl _)))
            5 _)).
  - intros m H. injection H as <-. lia.
  - left. cbn. lia.
  - left. cbn. lia.
Defined.

Lemma get_hit_moves_entry_to_front_witness :
  let o := defaults in
  let st := run string_dec o
              [OpSet "a" 1 noItemOptions 0; OpSet "b" 2 noItemOptions 0]
              fresh_cache in
  fst (get string_dec o "a" 7 st) = Some 1 /\
  map key (dl_items (lst (snd (get string_dec o "a" 7 st)))) = ["a"; "b"].
Proof.
  destruct (get_hit_moves_entry_to_front string_dec defaults
              [OpSet "a" 1 noItemOptions 0; OpSet "b" 2 noItemOptions 0]
              "a" (mkNode 0 "a" 1 1 None) 7 eq_refl eq_refl)
    as (H1 & _ & H3 & _).
  split; [exact H1|exact H3].
Defined.

Lemma get_expired_removes_entry_witness :
  let o := with_ttl 1000 (with_dispose defaults) in
  let st := run string_dec o [OpSet "x" 9 noItemOptions 0] fresh_cache in
  fst (get string_dec o "x" 1001 st) = None /\
  misses (snd (get string_dec o "x" 1001 st)) = 1 /\
  disposed (snd (get string_dec o "x" 1001 st))
  = [mkCall 9 "x" EXPIRED false true true].
Proof.
  destruct (get_expired_removes_entry string_dec
              (with_ttl 1000 (with_dispose defaults))
              [OpSet "x" 9 noItemOptions 0]
              "x" (mkNode 0 "x" 9 1 (Some 1000)) 1001 eq_refl eq_refl eq_refl)
    as (H1 & _ & _ & _ & _ & H6 & H7).
  split; [exact H1|]. split; [exact H6|exact H7].
Defined.

Lemma created_is_held_plus_disposed_witness :
  let o := with_max 1 (with_dispose defaults) in
  let st := run string_dec o
              [OpSet "a" 1 noItemOptions 0; OpSet "b" 2 noItemOptions 0;
               OpSet "b" 3 noItemOptions 0; OpDelete "b" DELETED]
              fresh_cache in
  fresh st = 3%nat /\
  fresh st = (List.length (cache st) + List.length (disposed st))%nat.
Proof.
  split; [reflexivity|].
  apply (created_is_held_plus_disposed string_dec
           (with_max 1 (with_dispose defaults))
           [OpSet "a" 1 noItemOptions 0; OpSet "b" 2 noItemOptions 0;
            OpSet "b" 3 noItemOptions 0; OpDelete "b" DELETED]
           eq_refl eq_refl).
Defined.

Lemma three_nodes_distinct : NoDup (map nid (dl_items three_nodes)).
Proof.
  repeat (constructor; [cbn; intuition lia|]). constructor.
Defined.

Lemma moveToFront_of_listed_node_witness :
  dl_items (moveToFront node2 three_nodes) = [node2; node3; node1] /\
  dl_length (moveToFront node2 three_nodes) = 3.
Proof.
  destruct (moveToFront_of_listed_node three_nodes node2
              (or_intror (or_introl eq_refl)) three_nodes_distinct)
    as (H1 & _ & H3 & _).
  split; [exact H1|exact H3].
Defined.

Lemma removeTail_takes_the_last_node_witness :
  removeTail three_nodes = (Some node1, mkList [node3; node2] (3 - 1)).
Proof.
  apply (proj1 (proj2 (removeTail_takes_the_last_node three_nodes
                         three_nodes_distinct))
               [node3; node2] node1 eq_refl).
Defined.

Lemma set_evicts_from_the_tail_witness :
  let o := with_max 2 (with_dispose defaults) in
  let st := run string_dec o
              [OpSet "a" 1 noItemOptions 0; OpSet "b" 2 noItemOptions 0]
              fresh_cache in
  Forall (fun kn => expired_le (snd kn) 1 = false) (cache st) /\
  exists kept evicted,
    [mkNode 2 "c" 3 1 None; mkNode 1 "b" 2 1 None; mkNode 0 "a" 1 1 None]
    = (kept ++ evicted)%list /\
    dl_items (lst (set_at string_dec o "c" 3 noItemOptions 0 1 st)) = kept.
Proof.
  assert (F : Forall (fun kn : string * Node string Z =>
                        expired_le (snd kn) 1 = false)
                (cache (run string_dec (with_max 2 (with_dispose defaults))
                          [OpSet "a" 1 noItemOptions 0;
                           OpSet "b" 2 noItemOptions 0] fresh_cache)))
    by (repeat constructor).
  split; [exact F|].
  destruct (set_evicts_from_the_tail string_dec
              (with_max 2 (with_dispose defaults))
              [OpSet "a" 1 noItemOptions 0; OpSet "b" 2 noItemOptions 0]
              "c" 3 noItemOptions 0 1 F)
    as (kept & ev & H1 & H2 & _).
  { left. cbn. lia. }
  exists kept, ev. split; [exact H1|exact H2].
Defined.

Lemma plain_use_follows_lru_witness :
  let o := with_max 2 defaults in
  let ops := [OpSet "a" 1 noItemOptions 0; OpSet "b" 2 noItemOptions 0;
              OpGet "a" 0; OpSetAt "c" 3 noItemOptions 0 1] in
  Forall (plain_access o) ops /\
  map key (dl_items (lst (run string_dec o ops fresh_cache))) = ["c"; "a"].
Proof.
  assert (F : Forall (plain_access (with_max 2 defaults))
                [OpSet "a" 1 noItemOptions 0; OpSet "b" 2 noItemOptions 0;
                 OpGet "a" 0; OpSetAt "c" 3 noItemOptions 0 1])
    by (repeat constructor; cbn; lia).
  split; [exact F|].
  apply (proj1 (plain_use_follows_lru string_dec (with_max 2 defaults) 2
                  [OpSet "a" 1 noItemOptions 0; OpSet "b" 2 noItemOptions 0;
                   OpGet "a" 0; OpSetAt "c" 3 noItemOptions 0 1]
                  eq_refl ltac:(lia) eq_refl F)).
Defined.

(** X20.  Under [allowStale], [get] of a key whose entry is past its expiry
    ([expiry < now], the test of [get]) returns the stale value and changes
    nothing but [hits], which grows by one: the recency list and the index
    are the ones before the call, so the entry is neither moved nor
    removed, and [has] still finds it.  In particular with [ttl = 1000] and
    [allowStale = true], after a [set(x, 9)] that reads the clock at [t] and
    finishes before the entry expires, at [t + 2000] [get(x)] returns 9 and
    [has(x)] returns [true], before and after the [get]. *)
Theorem stale_get_keeps_entry :
  (forall (K V : Type) (K_eq_dec : forall x y : K, {x = y} + {x <> y})
          (opts : @Options K V) (st : @State K V) k node e now,
      map_get K_eq_dec k (cache st) = Some node ->
      expiry node = Some e -> e < now ->
      opt_allowStale opts = true ->
      get K_eq_dec opts k now st
      = (Some (value node), with_hits (hits st + 1) st) /\
      fst (has K_eq_dec opts k now st) = true) /\
  (forall t t' : Z,
      t' < t + 1000 ->
      let o := with_allowStale (with_ttl 1000 defaults) in
      let st := set_at string_dec o "x" 9 noItemOptions t t' fresh_cache in
      get string_dec o "x" (t + 2000) st = (Some 9, with_hits (hits st + 1) st) /\
      fst (has string_dec o "x" (t + 2000) st) = true /\
      fst (has string_dec o "x" (t + 2000)
             (snd (get string_dec o "x" (t + 2000) st))) = true).
Proof.
  split; [intros; now apply (get_stale K_eq_dec opts st k node e now)|].
  intros t t' Ht o st.
  assert (Hst : st = set_entry string_dec o "x" 9 noItemOptions t fresh_cache).
  { unfold st. apply set_at_without_pruning; [|reflexivity].
    rewrite set_entry_absent by reflexivity. cbn [cache].
    constructor; [|constructor]. apply item_expiry_live_at. right. exact Ht. }
  assert (Hget : map_get string_dec "x" (cache st)
                 = Some (mkNode 0 "x" 9 1 (Some (t + 1000)))).
  { rewrite Hst. reflexivity. }
  destruct (get_stale string_dec o st "x" _ (t + 1000) (t + 2000) Hget eq_refl)
    as [G H]; [lia|reflexivity|].
  cbn [value] in G. split; [exact G|]. split; [exact H|].
  rewrite G. cbn [snd]. unfold LRUCache.has in *.
  cbn [cache with_hits]. rewrite Hget in *.
  destruct (expired_lt _ (t + 2000) && negb (opt_allowStale o));
    [discriminate H|reflexivity].
Qed.

Lemma stale_get_keeps_entry_witness :
  let o := with_allowStale (with_ttl 1000 defaults) in
  let st := LRUCache.set string_dec o "x" 9 noItemOptions 0 fresh_cache in
  1000 < 2000 /\ opt_allowStale o = true /\
  get string_dec o "x" 2000 st = (Some 9, with_hits (hits st + 1) st) /\
  fst (has string_dec o "x" 2000 st) = true.
Proof.
  split; [lia|]. split; [reflexivity|].
  apply (proj1 stale_get_keeps_entry string Z string_dec
               (with_allowStale (with_ttl 1000 defaults))
               (LRUCache.set string_dec (with_allowStale (with_ttl 1000 defaults))
                  "x" 9 noItemOptions 0 fresh_cache)
               "x" (mkNode 0 "x" 9 1 (Some 1000)) 1000 2000);
    [reflexivity | reflexivity | lia | reflexivity].
Defined.

End MoreScenarios.
